(** * TM1py.Utils.Utils: insensitive ordered mappings and the cellset flattener

    A shallow embedding of [src/TM1py/Utils/Utils.py]:
    - the key normalisation [key.lower().replace(' ', '')];
    - the two dict-like classes [CaseAndSpaceInsensitiveDict] and
      [CaseAndSpaceInsensitiveTuplesDict], whose [_store] is an
      [OrderedDict] from the adjusted key to the pair (cased key, value);
    - [sort_addresstuple];
    - [build_content_from_cellset].

    Labels are [string]s of 8-bit characters.  [lower] maps the letters
    'A'..'Z' to 'a'..'z' and leaves every other character alone, which is
    what [str.lower] does on ASCII text. *)

From Stdlib Require Import Strings.Ascii Strings.String ZArith.
From stdpp Require Import base list strings gmap.

Local Open Scope string_scope.
Local Open Scope list_scope.

(** ** Exceptions

    The functions below raise exactly two Python exceptions, [KeyError]
    and [IndexError].  They are told apart here by the place that raises
    them, under the names the specification gives to these failures. *)

Inductive exn : Type :=
| KeyNotFound       (* KeyError of [self._store[...]], lines 170, 173, 246, 249 *)
| DimensionNotFound (* IndexError of [address_element[0]], line 61 *)
| StructureError.   (* IndexError or KeyError of indexing the raw cellset, lines 77-107 *)

Inductive result (A : Type) : Type :=
| Ok (a : A)
| Raise (e : exn).

Arguments Ok {A} a.
Arguments Raise {A} e.

#[global] Instance exn_eq_dec : EqDecision exn.
Proof. solve_decision. Defined.

(** ** Key normalisation: [s.lower().replace(' ', '')] *)

Definition lower_char (c : ascii) : ascii :=
  let n := nat_of_ascii c in
  if (65 <=? n)%nat && (n <=? 90)%nat then ascii_of_nat (n + 32) else c.

Fixpoint lower (s : string) : string :=
  match s with
  | EmptyString => EmptyString
  | String c s' => String (lower_char c) (lower s')
  end.

(** [s.replace(' ', '')]: every occurrence of the space character goes. *)
Fixpoint remove_spaces (s : string) : string :=
  match s with
  | EmptyString => EmptyString
  | String c s' =>
      if Ascii.eqb c " "%char then remove_spaces s' else String c (remove_spaces s')
  end.

Definition adjust (key : string) : string := remove_spaces (lower key).

(** [tuple([item.lower().replace(' ', '') for item in key])] *)
Definition adjust_tuple (key : list string) : list string := map adjust key.

(** [item.startswith(prefix)] *)
Definition startswith (item prefix : string) : bool := String.prefix prefix item.

(** ** [collections.OrderedDict]

    An association list without repeated keys, oldest key first.
    Assigning to a key that is present replaces its value where it
    stands; assigning to a new key appends. *)

Abbreviation odict A B := (list (A * B)) (only parsing).

Section OrderedDict.
Context {A B : Type} `{EqDecision A}.

Fixpoint od_setitem (k : A) (b : B) (d : odict A B) : odict A B :=
  match d with
  | [] => [(k, b)]
  | (k', b') :: d' =>
      if decide (k = k') then (k', b) :: d' else (k', b') :: od_setitem k b d'
  end.

Fixpoint od_getitem (k : A) (d : odict A B) : option B :=
  match d with
  | [] => None
  | (k', b') :: d' => if decide (k = k') then Some b' else od_getitem k d'
  end.

Fixpoint od_delitem (k : A) (d : odict A B) : option (odict A B) :=
  match d with
  | [] => None
  | (k', b') :: d' =>
      if decide (k = k') then Some d'
      else match od_delitem k d' with
           | Some d'' => Some ((k', b') :: d'')
           | None => None
           end
  end.

Definition od_keys (d : odict A B) : list A := map fst d.
Definition od_values (d : odict A B) : list B := map snd d.
End OrderedDict.

(** ** The two insensitive mappings

    [CaseAndSpaceInsensitiveDict] and [CaseAndSpaceInsensitiveTuplesDict]
    are the same class up to the function that adjusts a key; the methods
    are written once over that function. [K] is the type of cased keys,
    [NK] the type of adjusted keys. *)

(** [self._store] *)
Abbreviation store K NK V := (odict NK (K * V)) (only parsing).

(** Instances live in a heap of objects: a reference names a store, and
    the mutating methods change the store the reference names. *)
Abbreviation heap K NK V := (gmap nat (store K NK V)) (only parsing).

Section InsensitiveMapping.
Context {K NK V : Type} `{EqDecision NK} (adjust_key : K → NK).
Implicit Types (m : store K NK V) (h : heap K NK V).

(** [__setitem__]: [self._store[adjusted key] = (key, value)] *)
Definition setitem m (key : K) (value : V) : store K NK V :=
  od_setitem (adjust_key key) (key, value) m.

(** [__getitem__]: [self._store[adjusted key][1]] *)
Definition getitem m (key : K) : result V :=
  match od_getitem (adjust_key key) m with
  | Some (_, value) => Ok value
  | None => Raise KeyNotFound
  end.

(** [__delitem__]: [del self._store[adjusted key]] *)
Definition delitem m (key : K) : result (store K NK V) :=
  match od_delitem (adjust_key key) m with
  | Some m' => Ok m'
  | None => Raise KeyNotFound
  end.

(** [__iter__]: the cased keys of [self._store.values()] *)
Definition iter m : list K := map fst (od_values m).

(** [__len__] *)
Definition len m : nat := length m.

(** [self._store.values()]: the stored (cased key, value) pairs, oldest
    first.  This is what [copy] and [__iter__] read. *)
Definition store_values m : list (K * V) := od_values m.

Definition adjusted_items m : list (NK * V) :=
  map (λ e, (e.1, e.2.2)) m.

Definition adjusted_keys m : list NK := od_keys m.

(** [MutableMapping.update] on an iterable of pairs:
    [for key, value in other: self[key] = value] *)
Definition update m (data : list (K * V)) : store K NK V :=
  fold_left (λ m kv, setitem m kv.1 kv.2) data m.

(** [__init__(data)]: an empty [OrderedDict], then [self.update(data)] *)
Definition init (data : list (K * V)) : store K NK V := update [] data.

(** [copy]: a new instance built from [self._store.values()] *)
Definition copy m : store K NK V := init (od_values m).

(** The class invariant: adjusted keys are pairwise distinct, and each
    entry sits under the adjusted form of its own cased key. *)
Definition wf m : Prop :=
  NoDup (od_keys m) ∧ Forall (λ e, e.1 = adjust_key e.2.1) m.

Definition new_instance h (data : list (K * V)) : heap K NK V * nat :=
  let r := fresh (dom h) in (<[r := init data]> h, r).

Definition obj_setitem h (r : nat) (key : K) (value : V) : heap K NK V :=
  match h !! r with
  | Some m => <[r := setitem m key value]> h
  | None => h
  end.

Definition obj_getitem h (r : nat) (key : K) : option (result V) :=
  match h !! r with
  | Some m => Some (getitem m key)
  | None => None
  end.

Definition obj_values h (r : nat) : option (list (K * V)) :=
  match h !! r with
  | Some m => Some (store_values m)
  | None => None
  end.

(** [m2 = m1.copy()] *)
Definition obj_copy h (r : nat) : option (heap K NK V * nat) :=
  match h !! r with
  | Some m => Some (new_instance h (od_values m))
  | None => None
  end.
End InsensitiveMapping.


(** [CaseAndSpaceInsensitiveDict]: keys are strings. *)
Module CaseAndSpaceInsensitiveDict.
Abbreviation t V := (store string string V) (only parsing).
Definition empty {V} : t V := init adjust [].
Definition setitem {V} (m : t V) (key : string) (value : V) : t V :=
  setitem adjust m key value.
Definition getitem {V} (m : t V) (key : string) : result V := getitem adjust m key.
Definition delitem {V} (m : t V) (key : string) : result (t V) := delitem adjust m key.
Definition iter {V} (m : t V) : list string := iter m.
Definition len {V} (m : t V) : nat := len m.
Definition store_values {V} (m : t V) : list (string * V) := store_values m.
Definition adjusted_keys {V} (m : t V) : list string := adjusted_keys m.
Definition copy {V} (m : t V) : t V := copy adjust m.
End CaseAndSpaceInsensitiveDict.

(** [CaseAndSpaceInsensitiveTuplesDict]: keys are tuples of strings. *)
Module CaseAndSpaceInsensitiveTuplesDict.
Abbreviation t V := (store (list string) (list string) V) (only parsing).
Definition empty {V} : t V := init adjust_tuple [].
Definition setitem {V} (m : t V) (key : list string) (value : V) : t V :=
  setitem adjust_tuple m key value.
Definition getitem {V} (m : t V) (key : list string) : result V :=
  getitem adjust_tuple m key.
Definition delitem {V} (m : t V) (key : list string) : result (t V) :=
  delitem adjust_tuple m key.
Definition iter {V} (m : t V) : list (list string) := iter m.
Definition len {V} (m : t V) : nat := len m.
Definition store_values {V} (m : t V) : list (list string * V) := store_values m.
Definition adjusted_keys {V} (m : t V) : list (list string) := adjusted_keys m.
Definition copy {V} (m : t V) : t V := copy adjust_tuple m.
End CaseAndSpaceInsensitiveTuplesDict.

(** ** [sort_addresstuple] (lines 49-62) *)

Fixpoint sort_addresstuple (dimension_order : list string)
    (unsorted_addresstuple : list string) : result (list string) :=
  match dimension_order with
  | [] => Ok []
  | dimension :: dimension_order' =>
      let address_element :=
        List.filter (λ item, startswith item ("[" +:+ dimension +:+ "]."))
                    unsorted_addresstuple in
      match address_element with
      | [] => Raise DimensionNotFound
      | first :: _ =>
          match sort_addresstuple dimension_order' unsorted_addresstuple with
          | Ok sorted_addresstupple => Ok (first :: sorted_addresstupple)
          | Raise e => Raise e
          end
      end
  end.

(** ** The raw cellset

    The JSON object the REST API answers with, as records: a field that
    the code reads by name is a field of the record.  [Cardinality] is an
    integer of the JSON document and [range(Cardinality)] runs
    [Z.to_nat Cardinality] times.  A cell is a JSON object from property
    names to values. *)

Record member := Member { UniqueName : string }.
Record tuple_ := Tuple { Members : list member }.
Record axis := Axis { Cardinality : Z; Tuples : list tuple_ }.
Record dimension := Dimension { Name : string }.
Record cube := MkCube { Dimensions : list dimension }.

Record raw_cellset (Val : Type) := RawCellset {
  Cube : cube;
  Axes : list axis;
  Cells : list (odict string Val)
}.

Arguments RawCellset {Val} _ _ _.
Arguments Cube {Val} _.
Arguments Axes {Val} _.
Arguments Cells {Val} _.

(** [[data['UniqueName'] for data in tuple['Members']]] *)
Definition unique_names (t : tuple_) : list string := map UniqueName (Members t).

(** [top is not None and ordinal_cells >= top] *)
Definition top_reached (top : option Z) (ordinal_cells : nat) : bool :=
  match top with
  | None => false
  | Some n => (n <=? Z.of_nat ordinal_cells)%Z
  end.

(** ** [build_content_from_cellset] (lines 65-116)

    The function threads two things through its loops: the mapping
    [content_as_dict] it fills, and, kept here to state what the function
    reads, the indices at which it has read [Cells].  Both
    survive an exception in the model, so that a failing run still shows
    what had been stored. *)

Section Flattener.
Context {Val : Type}.

(** The value of an entry of [content_as_dict]: a plain [dict] from
    property name to value. *)
Definition properties : Type := odict string Val.

Record fstate := FState {
  content_as_dict : CaseAndSpaceInsensitiveTuplesDict.t properties;
  cells_read : list nat
}.

Definition M (A : Type) : Type := fstate → fstate * result A.

Definition ret {A} (a : A) : M A := λ st, (st, Ok a).
Definition raise {A} (e : exn) : M A := λ st, (st, Raise e).
Definition bind {A B} (c : M A) (k : A → M B) : M B :=
  λ st, match c st with
        | (st', Ok a) => k a st'
        | (st', Raise e) => (st', Raise e)
        end.

Notation "'let*' x ':=' c 'in' k" := (bind c (λ x, k))
  (at level 10, x name, c at level 100, k at level 200).
Notation "c ';;' k" := (bind c (λ _, k))
  (at level 100, k at level 200, right associativity).

(** [l[i]] on a list of the raw cellset *)
Definition index {A} (l : list A) (i : nat) : M A :=
  match l !! i with
  | Some a => ret a
  | None => raise StructureError
  end.

Definition lift {A} (r : result A) : M A :=
  match r with
  | Ok a => ret a
  | Raise e => raise e
  end.

(** [content_as_dict[coordinates_sorted] = {}] (line 105) *)
Definition store_empty (coordinates_sorted : list string) : M unit :=
  λ st, (FState (CaseAndSpaceInsensitiveTuplesDict.setitem
                   (content_as_dict st) coordinates_sorted [])
                (cells_read st), Ok tt).

(** [raw_cellset_as_dict['Cells'][ordinal_cells][cell_property]] (line 107) *)
Definition read_cell (cells : list (odict string Val)) (ordinal_cells : nat)
    (cell_property : string) : M Val :=
  λ st, match cells !! ordinal_cells with
        | None => (st, Raise StructureError)
        | Some cell =>
            let st' := FState (content_as_dict st) (cells_read st ++ [ordinal_cells]) in
            match od_getitem cell_property cell with
            | Some value => (st', Ok value)
            | None => (st', Raise StructureError)
            end
        end.

(** [content_as_dict[coordinates_sorted][cell_property] = value] (line 108):
    [__getitem__] hands out the [dict] stored at line 105, which nothing
    else refers to, and the assignment changes that [dict] where it is:
    the entry keeps its place and its cased key. *)
Definition store_property (coordinates_sorted : list string)
    (cell_property : string) (value : Val) : M unit :=
  λ st, match CaseAndSpaceInsensitiveTuplesDict.getitem
                (content_as_dict st) coordinates_sorted with
        | Raise e => (st, Raise e)
        | Ok d =>
            let d' := od_setitem cell_property value d in
            (FState (map (λ e, if decide (e.1 = adjust_tuple coordinates_sorted)
                               then (e.1, (e.2.1, d')) else e)
                         (content_as_dict st))
                    (cells_read st), Ok tt)
        end.

(** lines 106-108 *)
Fixpoint read_properties (cells : list (odict string Val))
    (coordinates_sorted : list string) (ordinal_cells : nat)
    (cell_properties : list string) : M unit :=
  match cell_properties with
  | [] => ret tt
  | cell_property :: cell_properties' =>
      let* value := read_cell cells ordinal_cells cell_property in
      store_property coordinates_sorted cell_property value ;;
      read_properties cells coordinates_sorted ordinal_cells cell_properties'
  end.

Section Loops.
Variable raw_cellset_as_dict : raw_cellset Val.
Variable cell_properties : list string.
Variable top : option Z.
Variable cube_dimensions : list string.
Variable axe0_as_dict : axis.
Variable axe1_as_dict : axis.
Variable elements_on_axe2 : list string.

(** lines 100-108: one cell *)
Definition cell_body (elements_on_axe1 : list string)
    (ordinal_axe0 ordinal_cells : nat) : M unit :=
  let* tuples_as_dict := index (Tuples axe0_as_dict) ordinal_axe0 in
  let elements_on_axe0 := unique_names tuples_as_dict in
  let coordinates := (elements_on_axe0 ++ elements_on_axe2 ++ elements_on_axe1)%list in
  let* coordinates_sorted := lift (sort_addresstuple cube_dimensions coordinates) in
  store_empty coordinates_sorted ;;
  read_properties (Cells raw_cellset_as_dict) coordinates_sorted ordinal_cells
                  cell_properties.

(** lines 98-112: [for j in range(axe0_as_dict['Cardinality'])], with
    [n] iterations left; the result is [ordinal_cells] when the loop
    is left. *)
Fixpoint columns_loop (n : nat) (elements_on_axe1 : list string)
    (ordinal_axe0 ordinal_cells : nat) : M nat :=
  match n with
  | O => ret ordinal_cells
  | S n' =>
      cell_body elements_on_axe1 ordinal_axe0 ordinal_cells ;;
      let ordinal_axe0 := S ordinal_axe0 in
      let ordinal_cells := S ordinal_cells in
      if top_reached top ordinal_cells then ret ordinal_cells
      else columns_loop n' elements_on_axe1 ordinal_axe0 ordinal_cells
  end.

(** lines 93-115: [for i in range(axe1_as_dict['Cardinality'])], with
    [n] iterations left. *)
Fixpoint rows_loop (n : nat) (ordinal_axe1 ordinal_cells : nat) : M unit :=
  match n with
  | O => ret tt
  | S n' =>
      let* tuples_as_dict := index (Tuples axe1_as_dict) ordinal_axe1 in
      let elements_on_axe1 := unique_names tuples_as_dict in
      let* ordinal_cells :=
        columns_loop (Z.to_nat (Cardinality axe0_as_dict)) elements_on_axe1
                     0 ordinal_cells in
      if top_reached top ordinal_cells then ret tt
      else rows_loop n' (S ordinal_axe1) ordinal_cells
  end.
End Loops.

(** lines 75-115, run on the state *)
Definition build_content_body (raw_cellset_as_dict : raw_cellset Val)
    (cell_properties : list string) (top : option Z) : M unit :=
  let cube_dimensions := map Name (Dimensions (Cube raw_cellset_as_dict)) in
  let* axe0_as_dict := index (Axes raw_cellset_as_dict) 0 in
  let* axe1_as_dict := index (Axes raw_cellset_as_dict) 1 in
  let* elements_on_axe2 :=
    (if (2 <? length (Axes raw_cellset_as_dict))%nat then
       let* axe2_as_dict := index (Axes raw_cellset_as_dict) 2 in
       let* tuples_as_dict := index (Tuples axe2_as_dict) 0 in
       ret (unique_names tuples_as_dict)
     else ret []) in
  rows_loop raw_cellset_as_dict cell_properties top cube_dimensions
            axe0_as_dict axe1_as_dict elements_on_axe2
            (Z.to_nat (Cardinality axe1_as_dict)) 0 0.

(** The run from line 73, where [content_as_dict] is created empty:
    the final state and how the call ended. *)
Definition build_content_run (raw_cellset_as_dict : raw_cellset Val)
    (cell_properties : list string) (top : option Z) : fstate * result unit :=
  build_content_body raw_cellset_as_dict cell_properties top
    (FState CaseAndSpaceInsensitiveTuplesDict.empty []).

(** What the caller gets: the mapping, or the exception. *)
Definition build_content_from_cellset (raw_cellset_as_dict : raw_cellset Val)
    (cell_properties : list string) (top : option Z)
    : result (CaseAndSpaceInsensitiveTuplesDict.t properties) :=
  match build_content_run raw_cellset_as_dict cell_properties top with
  | (st, Ok _) => Ok (content_as_dict st)
  | (_, Raise e) => Raise e
  end.
End Flattener.

Arguments fstate : clear implicits.
Arguments properties : clear implicits.

(** ** A sample cellset

    Two dimensions; two column tuples on [Scenario] (axis 0), three row
    tuples on [Business Unit] (axis 1), no title axis; six cells whose
    [Value] is the cell's number. *)

Definition sample_tuple (unique_name : string) : tuple_ := Tuple [Member unique_name].

Definition sample_columns : axis :=
  Axis 2 [sample_tuple "[Scenario].[Actual]"; sample_tuple "[Scenario].[Budget]"].

Definition sample_rows : axis :=
  Axis 3 [sample_tuple "[Business Unit].[UK]";
          sample_tuple "[Business Unit].[France]";
          sample_tuple "[Business Unit].[Germany]"].

Definition sample_cell (n : Z) : odict string Z := [("Value", n)].

Definition sample_cellset : raw_cellset Z :=
  RawCellset (MkCube [Dimension "Business Unit"; Dimension "Scenario"])
             [sample_columns; sample_rows]
             (map sample_cell [0; 1; 2; 3; 4; 5]%Z).


(** ** Reading a run of the flattener

    The cell the two loops are at, as functions of the row and column
    numbers: what line 102 puts together there, whether lines 100-108
    go through there, and the cells the loops visit before it. *)

Section Reach.
Context {Val : Type} (raw : raw_cellset Val) (cell_properties : list string).

(** lines 85-90: [elements_on_axe2], when reading it does not fail *)
Definition title_elements : option (list string) :=
  if (2 <? length (Axes raw))%nat then
    axe2 ← Axes raw !! 2; t ← Tuples axe2 !! 0; Some (unique_names t)
  else Some [].

Definition n_columns : nat :=
  match Axes raw !! 0 with Some axe0 => Z.to_nat (Cardinality axe0) | None => 0 end.

Definition n_rows : nat :=
  match Axes raw !! 1 with Some axe1 => Z.to_nat (Cardinality axe1) | None => 0 end.

(** line 102: [coordinates] at row [i], column [j] *)
Definition coordinates_at (i j : nat) : option (list string) :=
  axe0 ← Axes raw !! 0;
  axe1 ← Axes raw !! 1;
  elements_on_axe2 ← title_elements;
  t1 ← Tuples axe1 !! i;
  t0 ← Tuples axe0 !! j;
  if (i <? n_rows)%nat && (j <? n_columns)%nat
  then Some (unique_names t0 ++ elements_on_axe2 ++ unique_names t1)%list
  else None.

(** Lines 100-108 raise nothing at row [i], column [j]: the coordinates
    sort, and the cell of that number has every requested property. *)
Definition cell_passes (i j : nat) : bool :=
  match coordinates_at i j with
  | Some coordinates =>
      match sort_addresstuple (map Name (Dimensions (Cube raw))) coordinates with
      | Ok _ =>
          forallb (λ cell_property,
                     match Cells raw !! (i * n_columns + j)%nat with
                     | Some cell => bool_decide (is_Some (od_getitem cell_property cell))
                     | None => false
                     end) cell_properties
      | Raise _ => false
      end
  | None => false
  end.

(** The cells visited before row [i], column [j], in the order of the loops. *)
Definition cells_before (i j : nat) : list (nat * nat) :=
  (flat_map (λ i', map (λ j', (i', j')) (seq 0 n_columns)) (seq 0 i)
   ++ map (λ j', (i, j')) (seq 0 j))%list.
End Reach.

(** The same conditions inside the loops, where the axes and the title
    elements have been read. *)

Section CellConditions.
Context {Val : Type}.
Variable raw : raw_cellset Val.
Variable cell_properties : list string.
Variable cube_dimensions : list string.
Variable axe0 : axis.
Variable elements_on_axe2 : list string.

(** The cell of number [ordinal_cells] has the requested properties. *)
Definition cell_has_properties (ordinal_cells : nat) : Prop :=
  Forall (λ cell_property,
            ∃ cell, Cells raw !! ordinal_cells = Some cell
                    ∧ is_Some (od_getitem cell_property cell)) cell_properties.

(** Lines 100-108 go through at column [j] of a row with elements
    [elements_on_axe1], for the cell of number [ordinal_cells]. *)
Definition cell_goes_through (elements_on_axe1 : list string)
    (j ordinal_cells : nat) : Prop :=
  ∃ t0 coordinates_sorted,
    Tuples axe0 !! j = Some t0
    ∧ sort_addresstuple cube_dimensions
        (unique_names t0 ++ elements_on_axe2 ++ elements_on_axe1)
      = Ok coordinates_sorted
    ∧ cell_has_properties ordinal_cells.
End CellConditions.

(** Neither [break] is taken before the cell of number [n] is reached:
    the tests of lines 111 and 113 see the numbers 1 to [n]. *)
Definition not_cut_before (top : option Z) (n : nat) : bool :=
  match n with
  | O => true
  | S _ => negb (top_reached top n)
  end.

(** The label of dimension [d] is missing from [labels]. *)
Definition dimension_missing (d : string) (labels : list string) : Prop :=
  ∀ item, item ∈ labels → startswith item ("[" +:+ d +:+ "].") = false.

(** The coordinates of the sample, in the order of the cube's dimensions,
    row by row. *)
Definition sample_coordinates : list (list string) :=
  [ ["[Business Unit].[UK]"; "[Scenario].[Actual]"];
    ["[Business Unit].[UK]"; "[Scenario].[Budget]"];
    ["[Business Unit].[France]"; "[Scenario].[Actual]"];
    ["[Business Unit].[France]"; "[Scenario].[Budget]"];
    ["[Business Unit].[Germany]"; "[Scenario].[Actual]"];
    ["[Business Unit].[Germany]"; "[Scenario].[Budget]"] ].

(** The sample with its second row on a dimension the cube does not
    have: the coordinates of row 1 have no label of [Business Unit]. *)
Definition broken_cellset : raw_cellset Z :=
  RawCellset (Cube sample_cellset)
             [sample_columns;
              Axis 3 [sample_tuple "[Business Unit].[UK]";
                      sample_tuple "[Region].[EMEA]";
                      sample_tuple "[Business Unit].[Germany]"]]
             (Cells sample_cellset).

(** ** [__eq__] (lines 197-203 and 273-279)

    [other] is an instance of the class, hence a [Mapping]: line 199
    builds a new instance from it, which [update] fills with
    [for key in other: self[key] = other[key]]; line 203 compares the two
    plain [dict]s made of the adjusted items. *)

Section Equality.
Context {K NK V : Type} `{Countable NK} `{EqDecision V} (adjust_key : K → NK).

(** [for key in other: self[key] = other[key]], over the keys left *)
Fixpoint update_from_mapping (m other : store K NK V) (keys : list K)
    : result (store K NK V) :=
  match keys with
  | [] => Ok m
  | key :: keys' =>
      match getitem adjust_key other key with
      | Ok value => update_from_mapping (setitem adjust_key m key value) other keys'
      | Raise e => Raise e
      end
  end.

(** [CaseAndSpaceInsensitiveDict(other)] for an instance [other] *)
Definition init_from_mapping (other : store K NK V) : result (store K NK V) :=
  update_from_mapping [] other (iter other).

(** [dict(pairs)]: a later pair replaces an earlier one with its key *)
Definition dict_of (pairs : list (NK * V)) : gmap NK V :=
  fold_left (λ d kv, <[kv.1 := kv.2]> d) pairs ∅.

(** [self == other] *)
Definition eq_mapping (self other : store K NK V) : result bool :=
  match init_from_mapping other with
  | Ok other' =>
      Ok (bool_decide (dict_of (adjusted_items self) = dict_of (adjusted_items other')))
  | Raise e => Raise e
  end.
End Equality.

(** ** Searching and slicing strings

    [str.find], [str.rfind] and slices, as the two functions below use
    them: the pattern is never empty and no step is given. *)

(** Position [i] onwards; [s] is the text from position [i] on. *)
Fixpoint find_from (sub s : string) (i : nat) : option nat :=
  if String.prefix sub s then Some i
  else match s with
       | EmptyString => None
       | String _ s' => find_from sub s' (S i)
       end.

Fixpoint rfind_from (sub s : string) (i : nat) : option nat :=
  match s with
  | EmptyString => if String.prefix sub s then Some i else None
  | String _ s' =>
      match rfind_from sub s' (S i) with
      | Some j => Some j
      | None => if String.prefix sub s then Some i else None
      end
  end.

Fixpoint drop_string (n : nat) (s : string) : string :=
  match n, s with
  | O, _ => s
  | S n', EmptyString => EmptyString
  | S n', String _ s' => drop_string n' s'
  end.

(** The index, or -1 when there is none *)
Definition index_or_minus_one (o : option nat) : Z :=
  match o with
  | Some i => Z.of_nat i
  | None => (-1)%Z
  end.

(** [s.find(sub, start)] for [start >= 0] *)
Definition str_find (s sub : string) (start : Z) : Z :=
  if (Z.of_nat (String.length s) <? start)%Z then (-1)%Z
  else index_or_minus_one (find_from sub (drop_string (Z.to_nat start) s) (Z.to_nat start)).

(** [s.rfind(sub)] *)
Definition str_rfind (s sub : string) : Z := index_or_minus_one (rfind_from sub s 0).

(** A bound of a slice, brought into [0, len]: a negative bound counts
    from the end. *)
Definition slice_bound (len i : Z) : Z :=
  if (i <? 0)%Z then Z.max (i + len) 0 else Z.min i len.

(** [s[start:stop]] *)
Definition slice (s : string) (start stop : Z) : string :=
  let len := Z.of_nat (String.length s) in
  let lo := slice_bound len start in
  let hi := slice_bound len stop in
  substring (Z.to_nat lo) (Z.to_nat (hi - lo)) s.

(** ** [read_cube_name_from_mdx] (lines 32-46)

    [mdx.split()] cuts at runs of white space; among the 7-bit
    characters these are tab, line feed, vertical tab, form feed,
    carriage return, the four separators 28 to 31 and the space.
    [upper] maps 'a'..'z' to 'A'..'Z'. *)

Definition is_whitespace (c : ascii) : bool :=
  let n := nat_of_ascii c in
  ((9 <=? n)%nat && (n <=? 13)%nat) || ((28 <=? n)%nat && (n <=? 32)%nat).

(** [''.join(s.split())] *)
Fixpoint remove_whitespace (s : string) : string :=
  match s with
  | EmptyString => EmptyString
  | String c s' =>
      if is_whitespace c then remove_whitespace s' else String c (remove_whitespace s')
  end.

Definition upper_char (c : ascii) : ascii :=
  let n := nat_of_ascii c in
  if (97 <=? n)%nat && (n <=? 122)%nat then ascii_of_nat (n - 32) else c.

Fixpoint upper (s : string) : string :=
  match s with
  | EmptyString => EmptyString
  | String c s' => String (upper_char c) (upper s')
  end.

(** line 39 *)
Definition mdx_trimed (mdx : string) : string := upper (remove_whitespace mdx).

(** line 40 *)
Definition post_start (mdx : string) : Z :=
  (str_rfind (mdx_trimed mdx) "FROM[" + Z.of_nat (String.length "FROM["))%Z.

(** line 41 *)
Definition pos_end_found (mdx : string) : Z :=
  str_find (mdx_trimed mdx) "]WHERE" (post_start mdx).

Definition read_cube_name_from_mdx (mdx : string) : string :=
  let pos_end := pos_end_found mdx in
  let pos_end :=
    if (pos_end =? 0)%Z then (Z.of_nat (String.length (mdx_trimed mdx)) - 1)%Z
    else pos_end in
  slice (mdx_trimed mdx) (post_start mdx) pos_end.

(** The pattern occurs somewhere in the text. *)
Fixpoint contains (sub s : string) : bool :=
  String.prefix sub s
  || match s with
     | EmptyString => false
     | String _ s' => contains sub s'
     end.

(** The character occurs in the text. *)
Fixpoint has_char (c : ascii) (s : string) : bool :=
  match s with
  | EmptyString => false
  | String c' s' => Ascii.eqb c c' || has_char c s'
  end.

(** ** [build_pandas_dataframe_from_cellset] (lines 119-135)

    The function up to its two calls into pandas: what it hands to
    [pd.MultiIndex.from_tuples] and to [pd.DataFrame]. *)

Inductive frame_exn : Type :=
| KeyError           (* [self._store[...]] of [items()], or [cell['Value']] *)
| UnboundLocalError. (* [coordinates] at line 127, when the loop has not run *)

(** line 124: [unique_name[unique_name.rfind('].[') + 3:-1]] *)
Definition element_name (unique_name : string) : string :=
  slice unique_name (str_rfind unique_name "].[" + 3)%Z (-1)%Z.

(** line 127: [unique_name[1:unique_name.find('].[')]] *)
Definition dimension_name (unique_name : string) : string :=
  slice unique_name 1%Z (str_find unique_name "].[" 0%Z).

Section DataFrame.
Context {Val : Type}.

(** lines 123-125: the loop over [cellset.items()], with the keys still
    to come; the state is [cellset_clean] and the last [coordinates]
    bound by the loop. *)
Fixpoint clean_loop (cellset : store (list string) (list string) (properties Val))
    (keys : list (list string)) (cellset_clean : odict (list string) Val)
    (coordinates : option (list string))
    : frame_exn + (odict (list string) Val * option (list string)) :=
  match keys with
  | [] => inr (cellset_clean, coordinates)
  | key :: keys' =>
      match getitem adjust_tuple cellset key with
      | Raise _ => inl KeyError
      | Ok cell =>
          let coordinates_clean := map element_name key in
          match od_getitem "Value" cell with
          | None => inl KeyError
          | Some value =>
              clean_loop cellset keys'
                (od_setitem coordinates_clean value cellset_clean) (Some key)
          end
      end
  end.

Record frame_arguments := FrameArguments {
  keylist : list (list string);
  dimension_names : list string;
  values : list Val
}.

Definition build_pandas_dataframe_arguments
    (cellset : store (list string) (list string) (properties Val))
    : frame_exn + frame_arguments :=
  match clean_loop cellset (iter cellset) [] None with
  | inl e => inl e
  | inr (cellset_clean, coordinates) =>
      match coordinates with
      | None => inl UnboundLocalError
      | Some coordinates =>
          inr (FrameArguments (od_keys cellset_clean)
                              (map dimension_name coordinates)
                              (od_values cellset_clean))
      end
  end.
End DataFrame.

Arguments frame_arguments : clear implicits.

(** The test of line 60 for dimension [d]: the label opens with
    ["[d]."]. *)
Abbreviation opens_with d := (λ item : string, startswith item ("[" +:+ d +:+ "].")).

(** * Properties *)

(** ** Strings *)

Lemma lower_app (s t : string) : lower (s +:+ t) = lower s +:+ lower t.
Proof. induction s as [|c s IH]; simpl; [reflexivity | by rewrite IH]. Qed.

Lemma remove_spaces_app (s t : string) :
  remove_spaces (s +:+ t) = remove_spaces s +:+ remove_spaces t.
Proof.
  induction s as [|c s IH]; simpl; [reflexivity |].
  destruct (Ascii.eqb c " "); simpl; by rewrite IH.
Qed.

Lemma adjust_app (s t : string) : adjust (s +:+ t) = adjust s +:+ adjust t.
Proof. unfold adjust. by rewrite lower_app, remove_spaces_app. Qed.

Lemma startswith_spec (item p : string) :
  startswith item p = true ↔ ∃ rest, item = p +:+ rest.
Proof.
  unfold startswith. revert item.
  induction p as [|c p IH]; intros item.
  - split; [intros _; by exists item | by destruct item].
  - destruct item as [|d item]; simpl.
    + split; [done | intros [rest Hr]; discriminate].
    + destruct (ascii_dec c d) as [->|Hne].
      * rewrite IH. split; intros [rest Hr]; exists rest; [by rewrite Hr | by injection Hr].
      * split; [done | intros [rest Hr]; injection Hr; intros; congruence].
Qed.

Lemma startswith_adjust (item p : string) :
  startswith item p = true → startswith (adjust item) (adjust p) = true.
Proof.
  rewrite !startswith_spec. intros [rest ->].
  exists (adjust rest). apply adjust_app.
Qed.

Lemma adjust_cons (c : ascii) (s : string) :
  adjust (String c s) =
  if Ascii.eqb (lower_char c) " " then adjust s else String (lower_char c) (adjust s).
Proof. reflexivity. Qed.

(** Two dimension names that adjust to the same key and both open the
    same label are the same name. *)
Lemma prefix_adjust_inj (d d' t : string) :
  adjust d = adjust d' →
  startswith t (d +:+ "].") = true →
  startswith t (d' +:+ "].") = true →
  d = d'.
Proof.
  revert d' t. induction d as [|c d IH]; intros d' t Ha H1 H2.
  - destruct d' as [|c' d']; [done |].
    apply startswith_spec in H1 as [r1 ->].
    apply startswith_spec in H2 as [r2 H2]. simpl in H2.
    injection H2 as <- _. discriminate Ha.
  - destruct d' as [|c' d'].
    + apply startswith_spec in H2 as [r2 ->].
      apply startswith_spec in H1 as [r1 H1]. simpl in H1.
      injection H1 as <- _. discriminate Ha.
    + apply startswith_spec in H1 as [r1 ->].
      pose proof H2 as H2'.
      apply startswith_spec in H2' as [r2 H2']. simpl in H2'.
      injection H2' as Hc _; subst c'.
      f_equal. apply (IH d' ((d +:+ "].") +:+ r1)).
      * rewrite !adjust_cons in Ha. destruct (Ascii.eqb (lower_char c) " "); [done | by injection Ha].
      * apply startswith_spec. by exists r1.
      * unfold startswith in *. simpl in H2. by destruct (ascii_dec _ _).
Qed.

(** ** [OrderedDict] *)

Section OrderedDictFacts.
Context {A B : Type} `{EqDecision A}.
Implicit Types (d : odict A B) (k : A) (b : B).

Lemma od_getitem_None k d : od_getitem k d = None ↔ k ∉ od_keys d.
Proof.
  induction d as [|[k' b'] d IH]; simpl.
  - split; [intros _; apply not_elem_of_nil | done].
  - rewrite not_elem_of_cons. destruct (decide (k = k')) as [->|Hne].
    + split; [done | intros [? _]; done].
    + rewrite IH. tauto.
Qed.

Lemma od_getitem_is_Some k d : is_Some (od_getitem k d) ↔ k ∈ od_keys d.
Proof.
  rewrite <- not_eq_None_Some, od_getitem_None.
  destruct (decide (k ∈ od_keys d)); tauto.
Qed.

Lemma od_getitem_setitem k b d : od_getitem k (od_setitem k b d) = Some b.
Proof.
  induction d as [|[k' b'] d IH]; simpl.
  - by rewrite decide_True.
  - destruct (decide (k = k')) as [->|Hne]; simpl.
    + by rewrite decide_True.
    + by rewrite decide_False.
Qed.

Lemma od_getitem_setitem_ne k k' b d :
  k ≠ k' → od_getitem k' (od_setitem k b d) = od_getitem k' d.
Proof.
  intros Hne. induction d as [|[k0 b0] d IH]; simpl.
  - by rewrite decide_False.
  - destruct (decide (k = k0)) as [->|Hne0]; simpl.
    + by rewrite !decide_False.
    + by rewrite IH.
Qed.

(** Assigning to a key that is there changes one entry where it stands. *)
Lemma od_setitem_present k b d :
  k ∈ od_keys d →
  ∃ i, od_keys d !! i = Some k ∧ od_setitem k b d = <[i := (k, b)]> d.
Proof.
  induction d as [|[k' b'] d IH]; simpl.
  - intros Hin. by apply elem_of_nil in Hin.
  - intros Hin. destruct (decide (k = k')) as [->|Hne].
    + by exists 0.
    + apply elem_of_cons in Hin as [?|Hin]; [done |].
      destruct (IH Hin) as (i & Hi & Hset).
      exists (S i). simpl. by rewrite Hset.
Qed.

(** Assigning to a key that is not there appends an entry. *)
Lemma od_setitem_absent k b d :
  k ∉ od_keys d → od_setitem k b d = d ++ [(k, b)].
Proof.
  induction d as [|[k' b'] d IH]; simpl; [done |].
  rewrite not_elem_of_cons. intros [Hne Hnin].
  by rewrite decide_False, IH.
Qed.

Lemma od_keys_setitem_present k b d :
  k ∈ od_keys d → od_keys (od_setitem k b d) = od_keys d.
Proof.
  induction d as [|[k' b'] d IH]; simpl.
  - intros Hin. by apply elem_of_nil in Hin.
  - intros Hin. destruct (decide (k = k')) as [->|Hne]; simpl; [done |].
    apply elem_of_cons in Hin as [?|Hin]; [done |]. by rewrite IH.
Qed.

Lemma od_keys_setitem_absent k b d :
  k ∉ od_keys d → od_keys (od_setitem k b d) = od_keys d ++ [k].
Proof.
  intros Hnin. rewrite od_setitem_absent by done.
  unfold od_keys. by rewrite map_app.
Qed.
End OrderedDictFacts.

Lemma map_list_insert {A B : Type} (f : A → B) (l : list A) (i : nat) (x : A) :
  map f (<[i := x]> l) = <[i := f x]> (map f l).
Proof.
  revert i. induction l as [|a l IH]; intros [|i]; simpl; try reflexivity.
  by rewrite IH.
Qed.

(** ** The insensitive mappings *)

Section InsensitiveMappingFacts.
Context {K NK V : Type} `{EqDecision NK} (adjust_key : K → NK).
Implicit Types (m : store K NK V) (key : K) (value : V).

Lemma getitem_setitem m key key' value :
  adjust_key key = adjust_key key' →
  getitem adjust_key (setitem adjust_key m key value) key' = Ok value.
Proof.
  intros Heq. unfold getitem, setitem.
  by rewrite <- Heq, od_getitem_setitem.
Qed.

Lemma getitem_setitem_ne m key key' value :
  adjust_key key ≠ adjust_key key' →
  getitem adjust_key (setitem adjust_key m key value) key' = getitem adjust_key m key'.
Proof.
  intros Hne. unfold getitem, setitem.
  by rewrite od_getitem_setitem_ne.
Qed.

Lemma getitem_absent m key :
  adjust_key key ∉ adjusted_keys m → getitem adjust_key m key = Raise KeyNotFound.
Proof.
  intros Hnin. unfold getitem.
  by apply od_getitem_None in Hnin as ->.
Qed.

Lemma getitem_present m key :
  adjust_key key ∈ adjusted_keys m → ∃ value, getitem adjust_key m key = Ok value.
Proof.
  intros Hin. unfold getitem.
  apply od_getitem_is_Some in Hin as [[k v] ->]. by exists v.
Qed.

Lemma setitem_present m key value :
  adjust_key key ∈ adjusted_keys m →
  ∃ i, adjusted_keys m !! i = Some (adjust_key key)
       ∧ adjusted_keys (setitem adjust_key m key value) = adjusted_keys m
       ∧ store_values (setitem adjust_key m key value)
         = <[i := (key, value)]> (store_values m)
       ∧ iter (setitem adjust_key m key value) = <[i := key]> (iter m).
Proof.
  intros Hin. unfold adjusted_keys, store_values, iter, od_values, setitem in *.
  destruct (od_setitem_present _ (key, value) _ Hin) as (i & Hi & Hset).
  exists i. split; [done |]. split; [by apply od_keys_setitem_present |].
  rewrite Hset. by rewrite !map_list_insert.
Qed.

Lemma setitem_absent m key value :
  adjust_key key ∉ adjusted_keys m →
  adjusted_keys (setitem adjust_key m key value) = adjusted_keys m ++ [adjust_key key]
  ∧ store_values (setitem adjust_key m key value) = store_values m ++ [(key, value)]
  ∧ iter (setitem adjust_key m key value) = iter m ++ [key].
Proof.
  intros Hnin. unfold adjusted_keys, store_values, iter, od_values, setitem in *.
  rewrite od_setitem_absent by done.
  unfold od_keys. by rewrite !map_app.
Qed.

(** The invariant of the class. *)

Lemma wf_init_nil : wf adjust_key (init adjust_key ([] : list (K * V))).
Proof. split; [apply NoDup_nil_2 | apply Forall_nil_2]. Qed.

Lemma wf_setitem m key value : wf adjust_key m → wf adjust_key (setitem adjust_key m key value).
Proof.
  intros [Hnd Hall]. unfold setitem.
  destruct (decide (adjust_key key ∈ od_keys m)) as [Hin|Hnin].
  - split; [by rewrite od_keys_setitem_present |].
    destruct (od_setitem_present _ (key, value) _ Hin) as (i & _ & ->).
    by apply Forall_insert.
  - rewrite od_setitem_absent by done. split.
    + unfold od_keys in *. rewrite map_app. simpl.
      apply NoDup_app. split; [done |]. split; [| apply NoDup_singleton].
      intros x Hx ->%list_elem_of_singleton. done.
    + apply Forall_app. split; [done |]. by apply Forall_singleton.
Qed.

Lemma wf_update m data : wf adjust_key m → wf adjust_key (update adjust_key m data).
Proof.
  revert m. induction data as [|[k v] data IH]; intros m Hwf; simpl; [done |].
  by apply IH, wf_setitem.
Qed.

Lemma od_delitem_split (k : NK) m m' :
  od_delitem k m = Some m' → ∃ m1 e m2, m = m1 ++ (k, e) :: m2 ∧ m' = m1 ++ m2.
Proof.
  revert m'. induction m as [|[k0 e0] m IH]; intros m'; simpl; [done |].
  destruct (decide (k = k0)) as [->|Hne].
  - intros [= <-]. by exists [], e0, m.
  - destruct (od_delitem k m) as [m''|]; [| done].
    intros [= <-]. destruct (IH m'' eq_refl) as (m1 & e & m2 & -> & ->).
    by exists ((k0, e0) :: m1), e, m2.
Qed.

Lemma wf_delitem m m' key :
  wf adjust_key m → delitem adjust_key m key = Ok m' → wf adjust_key m'.
Proof.
  intros [Hnd Hall]. unfold delitem.
  destruct (od_delitem (adjust_key key) m) as [m''|] eqn:Hdel; [| done].
  intros [= <-]. apply od_delitem_split in Hdel as (m1 & e & m2 & -> & ->).
  unfold od_keys in *. rewrite map_app in *. simpl in Hnd.
  apply NoDup_app in Hnd as (Hnd1 & Hdisj & [_ Hnd2]%NoDup_cons).
  apply Forall_app in Hall as [Hall1 [_ Hall2]%Forall_cons].
  split; [| by apply Forall_app].
  unfold od_keys. rewrite map_app.
  apply NoDup_app. split; [done |]. split; [| done].
  intros x Hx Hx2. apply (Hdisj x Hx). by right.
Qed.

(** Replaying the stored pairs of a well-formed store onto [m0] appends
    them, as long as their keys are new to [m0]. *)
Lemma update_store_values m0 m :
  wf adjust_key (m0 ++ m) → update adjust_key m0 (od_values m) = m0 ++ m.
Proof.
  revert m0. induction m as [|[nk [k v]] m IH]; intros m0 Hwf; simpl.
  - by rewrite app_nil_r.
  - replace (m0 ++ (nk, (k, v)) :: m) with ((m0 ++ [(nk, (k, v))]) ++ m) in *
      by (by rewrite <- app_assoc).
    rewrite <- IH by done. f_equal.
    destruct Hwf as [Hnd Hall].
    apply Forall_app in Hall as [Hall _].
    apply Forall_app in Hall as [_ Hk]. apply Forall_cons in Hk as [Hk _].
    simpl in Hk. subst nk. unfold setitem. simpl.
    apply od_setitem_absent.
    unfold od_keys in Hnd. rewrite !map_app in Hnd. simpl in Hnd.
    apply NoDup_app in Hnd as [Hnd _].
    apply NoDup_app in Hnd as (_ & Hdisj & _).
    intros Hin. apply (Hdisj _ Hin). by left.
Qed.

(** [copy] rebuilds the very store it reads. *)
Lemma copy_wf m : wf adjust_key m → copy adjust_key m = m.
Proof. intros Hwf. unfold copy, init. by apply (update_store_values []). Qed.

(** [m2 = m1.copy()] makes a new object: it holds what [m1] holds, and
    assigning through [m2] leaves what [m1] names alone. *)
Lemma obj_copy_independent (h h' : heap K NK V) (r1 r2 : nat) m1 :
  h !! r1 = Some m1 → wf adjust_key m1 →
  obj_copy adjust_key h r1 = Some (h', r2) →
  r2 ≠ r1
  ∧ h' !! r1 = Some m1
  ∧ h' !! r2 = Some m1
  ∧ ∀ key value, obj_setitem adjust_key h' r2 key value !! r1 = Some m1.
Proof.
  intros Hr1 Hwf. unfold obj_copy, new_instance. rewrite Hr1.
  intros [= <- <-].
  assert (fresh (dom h) ≠ r1) as Hne.
  { intros Heq. apply (is_fresh (dom h)). rewrite Heq. apply elem_of_dom. eauto. }
  split; [done |]. split; [by rewrite lookup_insert_ne |].
  split; [rewrite lookup_insert_eq; f_equal; by apply copy_wf |].
  intros key value. unfold obj_setitem. rewrite lookup_insert_eq.
  by rewrite !lookup_insert_ne.
Qed.
End InsensitiveMappingFacts.

Lemma adjust_tuple_componentwise (key key' : list string) :
  Forall2 (λ l l', adjust l = adjust l') key key' ↔ adjust_tuple key = adjust_tuple key'.
Proof.
  unfold adjust_tuple. split.
  - induction 1 as [|l l' key key' Hl _ IH]; simpl; [done | by rewrite Hl, IH].
  - revert key'. induction key as [|l key IH]; intros [|l' key']; simpl; try done.
    intros [= Hl Hrest]. constructor; [done | by apply IH].
Qed.

(** C3. Lookup is insensitive to case and spaces.  On a
    [CaseAndSpaceInsensitiveDict], after [m[L] = v] the lookup [m[L']]
    gives [v] for every label [L'] with the adjusted form of [L]; on a
    [CaseAndSpaceInsensitiveTuplesDict] the same holds when the two
    tuples agree component by component after adjusting.  On both, the
    lookup of a key whose adjusted form is not stored fails with
    [KeyNotFound]. *)
Theorem insensitive_lookup :
  (∀ (V : Type) (m : CaseAndSpaceInsensitiveDict.t V) (L L' : string) (v : V),
     adjust L = adjust L' →
     CaseAndSpaceInsensitiveDict.getitem
       (CaseAndSpaceInsensitiveDict.setitem m L v) L' = Ok v)
  ∧ (∀ (V : Type) (m : CaseAndSpaceInsensitiveDict.t V) (key : string),
       adjust key ∉ CaseAndSpaceInsensitiveDict.adjusted_keys m →
       CaseAndSpaceInsensitiveDict.getitem m key = Raise KeyNotFound)
  ∧ (∀ (V : Type) (m : CaseAndSpaceInsensitiveTuplesDict.t V)
       (L L' : list string) (v : V),
       Forall2 (λ l l', adjust l = adjust l') L L' →
       CaseAndSpaceInsensitiveTuplesDict.getitem
         (CaseAndSpaceInsensitiveTuplesDict.setitem m L v) L' = Ok v)
  ∧ (∀ (V : Type) (m : CaseAndSpaceInsensitiveTuplesDict.t V) (key : list string),
       adjust_tuple key ∉ CaseAndSpaceInsensitiveTuplesDict.adjusted_keys m →
       CaseAndSpaceInsensitiveTuplesDict.getitem m key = Raise KeyNotFound).
Proof.
  repeat split.
  - intros V m L L' v Heq. by apply getitem_setitem.
  - intros V m key Hnin. by apply getitem_absent.
  - intros V m L L' v Heq%adjust_tuple_componentwise. by apply getitem_setitem.
  - intros V m key Hnin. by apply getitem_absent.
Qed.

Lemma insensitive_lookup_witness :
  CaseAndSpaceInsensitiveDict.getitem
    (CaseAndSpaceInsensitiveDict.setitem [("uk", ("UK", 7%Z))] "Travel Expenses" 100%Z)
    "TRAVEL expenses" = Ok 100%Z
  ∧ CaseAndSpaceInsensitiveDict.getitem [("uk", ("UK", 7%Z))] "France"
    = Raise KeyNotFound
  ∧ CaseAndSpaceInsensitiveTuplesDict.getitem
      (CaseAndSpaceInsensitiveTuplesDict.setitem
         [] ["[Business Unit].[UK]"; "[Scenario].[Worst Case]"] 1000%Z)
      ["[BusinessUnit].[UK]"; "[Scenario].[worstcase]"] = Ok 1000%Z
  ∧ CaseAndSpaceInsensitiveTuplesDict.getitem
      ([] : CaseAndSpaceInsensitiveTuplesDict.t Z) ["[Business Unit].[UK]"]
    = Raise KeyNotFound.
Proof.
  pose proof insensitive_lookup as (Hget & Habsent & Hget_tuple & Habsent_tuple).
  split; [apply Hget; reflexivity |].
  split; [apply Habsent; vm_compute; by intros [=]%list_elem_of_singleton |].
  split; [apply Hget_tuple; repeat constructor |].
  apply Habsent_tuple. apply not_elem_of_nil.
Defined.

(** C4. On an empty [CaseAndSpaceInsensitiveDict], after
    [m["Travel Expenses"] = 1] and then [m["travelexpenses"] = 2] the
    mapping has one entry, [m["Travel Expenses"]] is [2], and iterating
    yields the one key ["travelexpenses"], the casing written last. *)
Theorem display_key_last_written :
  let m := CaseAndSpaceInsensitiveDict.setitem
             (CaseAndSpaceInsensitiveDict.setitem
                CaseAndSpaceInsensitiveDict.empty "Travel Expenses" 1%Z)
             "travelexpenses" 2%Z in
  CaseAndSpaceInsensitiveDict.len m = 1
  ∧ CaseAndSpaceInsensitiveDict.getitem m "Travel Expenses" = Ok 2%Z
  ∧ CaseAndSpaceInsensitiveDict.iter m = ["travelexpenses"].
Proof. repeat split. Qed.

(** C5. Assignment keeps the order of the entries.  On both mappings,
    assigning to a key whose adjusted form is stored, at position [i] of
    the adjusted keys, leaves the adjusted keys as they are and replaces
    the entry at position [i] by the new cased key and value; assigning to
    a key whose adjusted form is not stored appends the entry at the end.
    Iteration reads the entries in that order. *)
Theorem assignment_keeps_order :
  (∀ (V : Type) (m : CaseAndSpaceInsensitiveDict.t V) (key : string) (value : V),
     let m' := CaseAndSpaceInsensitiveDict.setitem m key value in
     (adjust key ∈ CaseAndSpaceInsensitiveDict.adjusted_keys m →
      ∃ i, CaseAndSpaceInsensitiveDict.adjusted_keys m !! i = Some (adjust key)
           ∧ CaseAndSpaceInsensitiveDict.adjusted_keys m'
             = CaseAndSpaceInsensitiveDict.adjusted_keys m
           ∧ CaseAndSpaceInsensitiveDict.store_values m'
             = <[i := (key, value)]> (CaseAndSpaceInsensitiveDict.store_values m)
           ∧ CaseAndSpaceInsensitiveDict.iter m'
             = <[i := key]> (CaseAndSpaceInsensitiveDict.iter m))
     ∧ (adjust key ∉ CaseAndSpaceInsensitiveDict.adjusted_keys m →
        CaseAndSpaceInsensitiveDict.adjusted_keys m'
        = CaseAndSpaceInsensitiveDict.adjusted_keys m ++ [adjust key]
        ∧ CaseAndSpaceInsensitiveDict.store_values m'
          = CaseAndSpaceInsensitiveDict.store_values m ++ [(key, value)]
        ∧ CaseAndSpaceInsensitiveDict.iter m'
          = CaseAndSpaceInsensitiveDict.iter m ++ [key]))
  ∧ (∀ (V : Type) (m : CaseAndSpaceInsensitiveTuplesDict.t V)
       (key : list string) (value : V),
       let m' := CaseAndSpaceInsensitiveTuplesDict.setitem m key value in
       (adjust_tuple key ∈ CaseAndSpaceInsensitiveTuplesDict.adjusted_keys m →
        ∃ i, CaseAndSpaceInsensitiveTuplesDict.adjusted_keys m !! i
             = Some (adjust_tuple key)
             ∧ CaseAndSpaceInsensitiveTuplesDict.adjusted_keys m'
               = CaseAndSpaceInsensitiveTuplesDict.adjusted_keys m
             ∧ CaseAndSpaceInsensitiveTuplesDict.store_values m'
               = <[i := (key, value)]>
                   (CaseAndSpaceInsensitiveTuplesDict.store_values m)
             ∧ CaseAndSpaceInsensitiveTuplesDict.iter m'
               = <[i := key]> (CaseAndSpaceInsensitiveTuplesDict.iter m))
       ∧ (adjust_tuple key ∉ CaseAndSpaceInsensitiveTuplesDict.adjusted_keys m →
          CaseAndSpaceInsensitiveTuplesDict.adjusted_keys m'
          = CaseAndSpaceInsensitiveTuplesDict.adjusted_keys m ++ [adjust_tuple key]
          ∧ CaseAndSpaceInsensitiveTuplesDict.store_values m'
            = CaseAndSpaceInsensitiveTuplesDict.store_values m ++ [(key, value)]
          ∧ CaseAndSpaceInsensitiveTuplesDict.iter m'
            = CaseAndSpaceInsensitiveTuplesDict.iter m ++ [key])).
Proof.
  split; intros V m key value m'; (split; [apply setitem_present | apply setitem_absent]).
Qed.

Lemma assignment_keeps_order_witness :
  let m : CaseAndSpaceInsensitiveDict.t Z :=
    [("uk", ("UK", 1%Z)); ("france", ("France", 2%Z))] in
  (∃ i, CaseAndSpaceInsensitiveDict.adjusted_keys m !! i = Some "uk"
        ∧ CaseAndSpaceInsensitiveDict.adjusted_keys
            (CaseAndSpaceInsensitiveDict.setitem m "U K" 5%Z)
          = ["uk"; "france"]
        ∧ CaseAndSpaceInsensitiveDict.store_values
            (CaseAndSpaceInsensitiveDict.setitem m "U K" 5%Z)
          = <[i := ("U K", 5%Z)]> [("UK", 1%Z); ("France", 2%Z)]
        ∧ CaseAndSpaceInsensitiveDict.iter
            (CaseAndSpaceInsensitiveDict.setitem m "U K" 5%Z)
          = <[i := "U K"]> ["UK"; "France"])
  ∧ CaseAndSpaceInsensitiveDict.iter (CaseAndSpaceInsensitiveDict.setitem m "Spain" 3%Z)
    = ["UK"; "France"; "Spain"].
Proof.
  intros m. split.
  - apply (proj1 (proj1 assignment_keeps_order Z m "U K" 5%Z)).
    vm_compute. by left.
  - apply (proj2 (proj1 assignment_keeps_order Z m "Spain" 3%Z)).
    vm_compute. intros Hin. by repeat (apply elem_of_cons in Hin as [[=]|Hin]);
      apply elem_of_nil in Hin.
Defined.

(** C8. A copy is independent of its source.  On both mappings, for an
    instance [r1] holding a store [m1] built by the class, [r1.copy()]
    gives a new instance [r2] that holds the same cased keys and values
    in the same order, and after any assignment through [r2] every lookup
    through [r1] gives what it gave before the copy. *)
Theorem copy_independence :
  (∀ (V : Type) (h : gmap nat (CaseAndSpaceInsensitiveDict.t V)) (r1 : nat)
     (m1 : CaseAndSpaceInsensitiveDict.t V),
     h !! r1 = Some m1 → wf adjust m1 →
     ∃ h' r2,
       obj_copy adjust h r1 = Some (h', r2)
       ∧ r2 ≠ r1
       ∧ obj_values h' r2 = obj_values h r1
       ∧ ∀ (key : string) (value : V) (key' : string),
           obj_getitem adjust (obj_setitem adjust h' r2 key value) r1 key'
           = obj_getitem adjust h r1 key')
  ∧ (∀ (V : Type) (h : gmap nat (CaseAndSpaceInsensitiveTuplesDict.t V)) (r1 : nat)
       (m1 : CaseAndSpaceInsensitiveTuplesDict.t V),
       h !! r1 = Some m1 → wf adjust_tuple m1 →
       ∃ h' r2,
         obj_copy adjust_tuple h r1 = Some (h', r2)
         ∧ r2 ≠ r1
         ∧ obj_values h' r2 = obj_values h r1
         ∧ ∀ (key : list string) (value : V) (key' : list string),
             obj_getitem adjust_tuple (obj_setitem adjust_tuple h' r2 key value) r1 key'
             = obj_getitem adjust_tuple h r1 key').
Proof.
  split; intros V h r1 m1 Hr1 Hwf.
  - destruct (obj_copy adjust h r1) as [[h' r2]|] eqn:Hcopy;
      [| unfold obj_copy in Hcopy; by rewrite Hr1 in Hcopy].
    destruct (obj_copy_independent adjust h h' r1 r2 m1 Hr1 Hwf Hcopy)
      as (Hne & Hold & Hnew & Hset).
    exists h', r2. split; [done |]. split; [done |].
    unfold obj_values, obj_getitem. rewrite Hnew, Hr1. split; [done |].
    intros key value key'. by rewrite Hset.
  - destruct (obj_copy adjust_tuple h r1) as [[h' r2]|] eqn:Hcopy;
      [| unfold obj_copy in Hcopy; by rewrite Hr1 in Hcopy].
    destruct (obj_copy_independent adjust_tuple h h' r1 r2 m1 Hr1 Hwf Hcopy)
      as (Hne & Hold & Hnew & Hset).
    exists h', r2. split; [done |]. split; [done |].
    unfold obj_values, obj_getitem. rewrite Hnew, Hr1. split; [done |].
    intros key value key'. by rewrite Hset.
Qed.

Lemma copy_independence_witness :
  let m1 : CaseAndSpaceInsensitiveDict.t Z :=
    CaseAndSpaceInsensitiveDict.setitem
      (CaseAndSpaceInsensitiveDict.setitem CaseAndSpaceInsensitiveDict.empty
         "Travel Expenses" 1%Z) "UK" 2%Z in
  let h : gmap nat (CaseAndSpaceInsensitiveDict.t Z) := {[ 0 := m1 ]} in
  ∃ h' r2,
    obj_copy adjust h 0 = Some (h', r2)
    ∧ r2 ≠ 0
    ∧ obj_values h' r2 = obj_values h 0
    ∧ ∀ (key : string) (value : Z) (key' : string),
        obj_getitem adjust (obj_setitem adjust h' r2 key value) 0 key'
        = obj_getitem adjust h 0 key'.
Proof.
  intros m1 h.
  apply (proj1 copy_independence Z h 0 m1).
  - apply lookup_singleton_eq.
  - apply wf_setitem, wf_setitem, wf_init_nil.
Defined.

(** ** The flattener on the sample *)



(** C1.  With [top = 0] the flattener does not return an empty mapping:
    the tests of lines 111 and 113 come after the first cell has been
    stored, so on the sample the run reads cell 0 and returns one
    entry, the same as with [top = 1]. *)
Theorem flatten_sample_top_0 :
  build_content_run sample_cellset ["Value"] (Some 0%Z)
  = (FState [(["[businessunit].[uk]"; "[scenario].[actual]"],
              (["[Business Unit].[UK]"; "[Scenario].[Actual]"], [("Value", 0%Z)]))]
            [0], Ok tt)
  ∧ build_content_run sample_cellset ["Value"] (Some 0%Z)
    = build_content_run sample_cellset ["Value"] (Some 1%Z).
Proof. split; vm_compute; reflexivity. Qed.

(** C9. With fewer than two axes the flattener fails at line 77 or 78,
    before anything is stored and before any cell is read. *)
Theorem fewer_than_two_axes_fails (Val : Type) (raw : raw_cellset Val)
    (cell_properties : list string) (top : option Z) :
  length (Axes raw) < 2 →
  build_content_run raw cell_properties top
  = (FState CaseAndSpaceInsensitiveTuplesDict.empty [], Raise StructureError)
  ∧ build_content_from_cellset raw cell_properties top = Raise StructureError.
Proof.
  intros Hlen.
  assert (build_content_run raw cell_properties top
          = (FState CaseAndSpaceInsensitiveTuplesDict.empty [], Raise StructureError))
    as Hrun.
  { unfold build_content_run, build_content_body, bind, index.
    destruct (Axes raw) as [|axe0 [|axe1 axes]]; simpl in *; [done | done | lia]. }
  split; [done |]. unfold build_content_from_cellset. by rewrite Hrun.
Qed.

Lemma fewer_than_two_axes_fails_witness :
  build_content_run
    (RawCellset (Cube sample_cellset) [sample_columns] (Cells sample_cellset))
    ["Value"] None
  = (FState CaseAndSpaceInsensitiveTuplesDict.empty [], Raise StructureError)
  ∧ build_content_from_cellset
      (RawCellset (Cube sample_cellset) [sample_columns] (Cells sample_cellset))
      ["Value"] None
    = Raise StructureError.
Proof.
  apply (fewer_than_two_axes_fails Z
           (RawCellset (Cube sample_cellset) [sample_columns] (Cells sample_cellset))
           ["Value"] None).
  simpl. lia.
Defined.

(** ** [sort_addresstuple] *)

(** The only exception of [sort_addresstuple] is that of line 61. *)
Lemma sort_addresstuple_raises dimension_order unsorted e :
  sort_addresstuple dimension_order unsorted = Raise e → e = DimensionNotFound.
Proof.
  induction dimension_order as [|d ds IH]; simpl; [done |].
  destruct (List.filter _ unsorted); [by intros [= <-] |].
  destruct (sort_addresstuple ds unsorted); [done |].
  intros [= <-]. by apply IH.
Qed.

Lemma filter_startswith_nil (d : string) (labels : list string) :
  dimension_missing d labels →
  List.filter (λ item, startswith item ("[" +:+ d +:+ "].")) labels = [].
Proof.
  unfold dimension_missing. induction labels as [|item labels IH]; intros Hmiss; [done |].
  cbn [List.filter]. rewrite (Hmiss item) by (by left).
  apply IH. intros item' Hin. apply Hmiss. by right.
Qed.

Lemma sort_addresstuple_missing dimension_order unsorted d :
  d ∈ dimension_order → dimension_missing d unsorted →
  sort_addresstuple dimension_order unsorted = Raise DimensionNotFound.
Proof.
  intros Hin Hmiss. induction dimension_order as [|d0 ds IH]; simpl.
  - by apply elem_of_nil in Hin.
  - apply elem_of_cons in Hin as [<-|Hin].
    + by rewrite filter_startswith_nil.
    + destruct (List.filter _ unsorted); [done |]. by rewrite IH.
Qed.

(** A label that opens with a dimension name spelt in another casing or
    spacing does not open with the name as listed. *)
Lemma other_spelling_not_matched (d d' item : string) :
  d' ≠ d → adjust d' = adjust d →
  startswith item ("[" +:+ d' +:+ "].") = true →
  startswith item ("[" +:+ d +:+ "].") = false.
Proof.
  intros Hne Hadj Hd'. destruct (startswith item ("[" +:+ d +:+ "].")) eqn:Hd; [| done].
  destruct Hne.
  apply startswith_spec in Hd as [r ->].
  apply startswith_spec in Hd' as [r' Heq].
  injection Heq as Heq.
  apply (prefix_adjust_inj d' d ((d +:+ "].") +:+ r)); [done | |].
  - apply startswith_spec. by exists r'.
  - apply startswith_spec. by exists r.
Qed.

(** C10. [sort_addresstuple] compares the dimension prefix as written.
    When, for a dimension [d] of [dimension_order], every label of the
    tuple that would match [d] after adjusting case and spaces opens with
    ["[d']."] for a name [d'] other than [d] with the adjusted form of
    [d], no label is matched for [d] and the call fails with
    [DimensionNotFound]. *)
Theorem sort_addresstuple_is_sensitive (dimension_order unsorted : list string)
    (d : string) :
  d ∈ dimension_order →
  (∀ item, item ∈ unsorted →
     startswith (adjust item) (adjust ("[" +:+ d +:+ "].")) = true →
     ∃ d', d' ≠ d ∧ adjust d' = adjust d
           ∧ startswith item ("[" +:+ d' +:+ "].") = true) →
  dimension_missing d unsorted
  ∧ sort_addresstuple dimension_order unsorted = Raise DimensionNotFound.
Proof.
  intros Hin Hcand.
  assert (dimension_missing d unsorted) as Hmiss.
  { intros item Hitem.
    destruct (startswith item ("[" +:+ d +:+ "].")) eqn:Hd; [| done].
    destruct (Hcand item Hitem (startswith_adjust _ _ Hd)) as (d' & Hne & Hadj & Hd').
    by rewrite (other_spelling_not_matched d d' item) in Hd. }
  split; [done |]. by apply (sort_addresstuple_missing _ _ d).
Qed.

Lemma sort_addresstuple_is_sensitive_witness :
  dimension_missing "Business Unit" ["[business unit].[UK]"; "[Scenario].[Actual]"]
  ∧ sort_addresstuple ["Business Unit"; "Scenario"]
      ["[business unit].[UK]"; "[Scenario].[Actual]"]
    = Raise DimensionNotFound.
Proof.
  apply (sort_addresstuple_is_sensitive
           ["Business Unit"; "Scenario"]
           ["[business unit].[UK]"; "[Scenario].[Actual]"] "Business Unit").
  - by left.
  - intros item Hin Hstarts.
    apply elem_of_cons in Hin as [->|Hin].
    + exists "business unit". by repeat split.
    + apply list_elem_of_singleton in Hin as ->. vm_compute in Hstarts. discriminate.
Defined.

(** ** The loops of the flattener *)

Lemma top_reached_mono (top : option Z) (a b : nat) :
  (a ≤ b)%nat → top_reached top b = false → top_reached top a = false.
Proof.
  destruct top as [n|]; simpl; [| done].
  rewrite !Z.leb_gt. lia.
Qed.

Section FlattenerFacts.
Context {Val : Type}.
Variable raw : raw_cellset Val.
Variable cell_properties : list string.
Variable top : option Z.
Variable cube_dimensions : list string.
Variable axe0 axe1 : axis.
Variable elements_on_axe2 : list string.

Local Abbreviation one_cell :=
  (cell_body raw cell_properties cube_dimensions axe0 elements_on_axe2).
Local Abbreviation columns :=
  (columns_loop raw cell_properties top cube_dimensions axe0 elements_on_axe2).
Local Abbreviation rows :=
  (rows_loop raw cell_properties top cube_dimensions axe0 axe1 elements_on_axe2).
Local Abbreviation goes_through :=
  (cell_goes_through raw cell_properties cube_dimensions axe0 elements_on_axe2).

Lemma store_property_keys (coordinates_sorted : list string) (p : string) (v : Val)
    (st st' : fstate Val) (r : result unit) :
  store_property coordinates_sorted p v st = (st', r) →
  od_keys (content_as_dict st') = od_keys (content_as_dict st).
Proof.
  unfold store_property.
  destruct (CaseAndSpaceInsensitiveTuplesDict.getitem _ _); [| by intros [= <- _]].
  intros [= <- _]. simpl. unfold od_keys. rewrite map_map.
  apply map_ext. intros e. by destruct (decide _).
Qed.

Lemma read_properties_ok (coordinates_sorted : list string) (ordinal_cells : nat)
    (props : list string) (st : fstate Val) :
  adjust_tuple coordinates_sorted ∈ od_keys (content_as_dict st) →
  Forall (λ cell_property,
            ∃ cell, Cells raw !! ordinal_cells = Some cell
                    ∧ is_Some (od_getitem cell_property cell)) props →
  ∃ st', read_properties (Cells raw) coordinates_sorted ordinal_cells props st
         = (st', Ok tt).
Proof.
  revert st. induction props as [|p props IH]; intros st Hkey Hprops; simpl.
  - by exists st.
  - apply Forall_cons in Hprops as [(cell & Hcell & [v Hv]) Hprops].
    unfold bind at 1. unfold read_cell. rewrite Hcell, Hv.
    unfold bind at 1.
    set (st1 := FState (content_as_dict st) (cells_read st ++ [ordinal_cells])).
    destruct (store_property coordinates_sorted p v st1) as [st2 r] eqn:Hstore.
    pose proof (store_property_keys _ _ _ _ _ _ Hstore) as Hkeys.
    unfold store_property in Hstore.
    destruct (getitem_present adjust_tuple (content_as_dict st1) coordinates_sorted Hkey)
      as [d Hd].
    unfold CaseAndSpaceInsensitiveTuplesDict.getitem in Hstore.
    rewrite Hd in Hstore. injection Hstore as <- <-.
    apply IH; [| done]. by rewrite Hkeys.
Qed.

Lemma cell_body_goes_through (elements_on_axe1 : list string) (j ordinal_cells : nat)
    (st : fstate Val) :
  goes_through elements_on_axe1 j ordinal_cells →
  ∃ st', one_cell elements_on_axe1 j ordinal_cells st = (st', Ok tt).
Proof.
  intros (t0 & coordinates_sorted & Ht0 & Hsort & Hprops).
  unfold cell_body, bind at 1, index. rewrite Ht0. simpl.
  unfold bind at 1. rewrite Hsort. simpl.
  unfold bind at 1, store_empty.
  apply read_properties_ok; [| done]. simpl.
  unfold CaseAndSpaceInsensitiveTuplesDict.setitem, setitem.
  apply od_getitem_is_Some. rewrite od_getitem_setitem. eauto.
Qed.

Lemma cell_body_raises (elements_on_axe1 : list string) (j ordinal_cells : nat)
    (t0 : tuple_) (e : exn) (st : fstate Val) :
  Tuples axe0 !! j = Some t0 →
  sort_addresstuple cube_dimensions
    (unique_names t0 ++ elements_on_axe2 ++ elements_on_axe1) = Raise e →
  one_cell elements_on_axe1 j ordinal_cells st = (st, Raise e).
Proof.
  intros Ht0 Hsort.
  unfold cell_body, bind at 1, index. rewrite Ht0. simpl.
  unfold bind at 1. by rewrite Hsort.
Qed.

(** The inner loop runs through [n] columns that go through, as long as
    the limit is not reached on the way. *)
Lemma columns_loop_goes_through (n : nat) (elements_on_axe1 : list string) :
  ∀ (j0 ordinal_cells : nat) (st : fstate Val),
    (∀ k, (k < n)%nat → goes_through elements_on_axe1 (j0 + k) (ordinal_cells + k)) →
    top_reached top (ordinal_cells + n) = false →
    ∃ st', columns n elements_on_axe1 j0 ordinal_cells st
           = (st', Ok (ordinal_cells + n)).
Proof.
  induction n as [|n IH]; intros j0 ordinal_cells st Hcells Htop; simpl.
  - exists st. unfold ret. by rewrite Nat.add_0_r.
  - unfold bind at 1.
    destruct (cell_body_goes_through elements_on_axe1 j0 ordinal_cells st) as [st1 ->].
    { specialize (Hcells 0). rewrite !Nat.add_0_r in Hcells. apply Hcells. lia. }
    rewrite (top_reached_mono top (S ordinal_cells) (ordinal_cells + S n)) by (lia || done).
    destruct (IH (S j0) (S ordinal_cells) st1) as [st' Hloop].
    + intros k Hk. specialize (Hcells (S k)).
      replace (S j0 + k) with (j0 + S k) by lia.
      replace (S ordinal_cells + k) with (ordinal_cells + S k) by lia.
      apply Hcells. lia.
    + by replace (S ordinal_cells + n) with (ordinal_cells + S n) by lia.
    + exists st'. rewrite Hloop. do 2 f_equal. lia.
Qed.

(** The inner loop stops with the exception of the first column whose
    coordinates do not sort, when the columns before it go through and
    the limit does not end the loop first. *)
Lemma columns_loop_raises (n : nat) (elements_on_axe1 : list string) (e : exn) :
  ∀ (k j0 ordinal_cells : nat) (t0 : tuple_) (st : fstate Val),
    (k < n)%nat →
    (∀ k', (k' < k)%nat →
           goes_through elements_on_axe1 (j0 + k') (ordinal_cells + k')) →
    Tuples axe0 !! (j0 + k) = Some t0 →
    sort_addresstuple cube_dimensions
      (unique_names t0 ++ elements_on_axe2 ++ elements_on_axe1) = Raise e →
    k = 0 ∨ top_reached top (ordinal_cells + k) = false →
    ∃ st', columns n elements_on_axe1 j0 ordinal_cells st = (st', Raise e).
Proof.
  induction n as [|n IH]; intros k j0 ordinal_cells t0 st Hk Hcells Ht0 Hsort Htop;
    [lia |].
  simpl. unfold bind at 1. destruct k as [|k].
  - rewrite Nat.add_0_r in Ht0.
    rewrite (cell_body_raises elements_on_axe1 j0 ordinal_cells t0 e st Ht0 Hsort).
    by exists st.
  - destruct Htop as [? | Htop]; [lia |].
    destruct (cell_body_goes_through elements_on_axe1 j0 ordinal_cells st) as [st1 ->].
    { specialize (Hcells 0). rewrite !Nat.add_0_r in Hcells. apply Hcells. lia. }
    rewrite (top_reached_mono top (S ordinal_cells) (ordinal_cells + S k)) by (lia || done).
    apply (IH k (S j0) (S ordinal_cells) t0 st1).
    + lia.
    + intros k' Hk'. specialize (Hcells (S k')).
      replace (S j0 + k') with (j0 + S k') by lia.
      replace (S ordinal_cells + k') with (ordinal_cells + S k') by lia.
      apply Hcells. lia.
    + by replace (S j0 + k) with (j0 + S k) by lia.
    + done.
    + right. by replace (S ordinal_cells + k) with (ordinal_cells + S k) by lia.
Qed.

(** The outer loop stops with the exception of the first cell whose
    coordinates do not sort: row [i0 + k], column [j], when every cell
    before it goes through and the limit does not end the loops first. *)
Lemma rows_loop_raises (n : nat) (e : exn) (j : nat) :
  let c0 := Z.to_nat (Cardinality axe0) in
  ∀ (k i0 : nat) (t1 t0 : tuple_) (st : fstate Val),
    (k < n)%nat → (j < c0)%nat →
    (∀ k' j', (k' < k)%nat → (j' < c0)%nat →
       ∃ t1', Tuples axe1 !! (i0 + k') = Some t1'
              ∧ goes_through (unique_names t1') j' ((i0 + k') * c0 + j')) →
    Tuples axe1 !! (i0 + k) = Some t1 →
    (∀ j', (j' < j)%nat →
       goes_through (unique_names t1) j' ((i0 + k) * c0 + j')) →
    Tuples axe0 !! j = Some t0 →
    sort_addresstuple cube_dimensions
      (unique_names t0 ++ elements_on_axe2 ++ unique_names t1) = Raise e →
    ((i0 + k) * c0 + j = 0)%nat ∨ top_reached top ((i0 + k) * c0 + j) = false →
    ∃ st', rows n i0 (i0 * c0) st = (st', Raise e).
Proof.
  intros c0. induction n as [|n IH];
    intros k i0 t1 t0 st Hk Hj Hrows Ht1 Hcols Ht0 Hsort Htop; [lia |].
  simpl. unfold bind at 1, index. destruct k as [|k].
  - rewrite Nat.add_0_r in *. rewrite Ht1. simpl. unfold bind at 1.
    fold c0.
    destruct (columns_loop_raises c0 (unique_names t1) e j 0 (i0 * c0) t0 st)
      as [st' ->]; try done.
    + destruct Htop as [? | Htop]; [left; lia | by right].
    + by exists st'.
  - destruct (Hrows 0 0) as (t1' & Ht1' & _); [lia | lia |].
    rewrite Nat.add_0_r in Ht1'. rewrite Ht1'. simpl. unfold bind at 1. fold c0.
    assert (top_reached top ((i0 + S k) * c0 + j) = false) as Htop'.
    { destruct Htop as [? | Htop]; [nia | done]. }
    destruct (columns_loop_goes_through c0 (unique_names t1') 0 (i0 * c0) st)
      as [st1 ->].
    + intros j' Hj'. destruct (Hrows 0 j') as (t1'' & Ht1'' & Hgo); [lia | done |].
      rewrite Nat.add_0_r in Ht1'', Hgo. by simplify_eq.
    + apply (top_reached_mono top _ ((i0 + S k) * c0 + j)); [nia | done].
    + rewrite (top_reached_mono top (i0 * c0 + c0) ((i0 + S k) * c0 + j)) by (nia || done).
      replace (i0 * c0 + c0)%nat with (S i0 * c0)%nat by lia.
      apply (IH k (S i0) t1 t0 st1); try done.
      * lia.
      * intros k' j' Hk' Hj'. replace (S i0 + k') with (i0 + S k') by lia.
        apply Hrows; [lia | done].
      * by replace (S i0 + k) with (i0 + S k) by lia.
      * replace (S i0 + k) with (i0 + S k) by lia. done.
      * replace (S i0 + k) with (i0 + S k) by lia. by right.
Qed.
End FlattenerFacts.

(** ** From the reading of a run to the loops *)

Section ReachFacts.
Context {Val : Type}.
Variable raw : raw_cellset Val.
Variable cell_properties : list string.
Variable axe0 axe1 : axis.
Variable elements_on_axe2 : list string.
Hypothesis Haxe0 : Axes raw !! 0 = Some axe0.
Hypothesis Haxe1 : Axes raw !! 1 = Some axe1.
Hypothesis Htitle : title_elements raw = Some elements_on_axe2.

Lemma n_columns_axe0 : n_columns raw = Z.to_nat (Cardinality axe0).
Proof using Haxe0. unfold n_columns. by rewrite Haxe0. Qed.

Lemma n_rows_axe1 : n_rows raw = Z.to_nat (Cardinality axe1).
Proof using Haxe1. unfold n_rows. by rewrite Haxe1. Qed.

Lemma coordinates_at_Some (i j : nat) (coordinates : list string) :
  coordinates_at raw i j = Some coordinates →
  ∃ t1 t0,
    Tuples axe1 !! i = Some t1 ∧ Tuples axe0 !! j = Some t0
    ∧ (i < n_rows raw)%nat ∧ (j < n_columns raw)%nat
    ∧ coordinates = unique_names t0 ++ elements_on_axe2 ++ unique_names t1.
Proof using Haxe0 Haxe1 Htitle.
  unfold coordinates_at. rewrite Haxe0, Haxe1, Htitle. simpl.
  destruct (Tuples axe1 !! i) as [t1|]; [| done]. simpl.
  destruct (Tuples axe0 !! j) as [t0|]; [| done]. simpl.
  destruct (i <? n_rows raw)%nat eqn:Hi; [| done].
  destruct (j <? n_columns raw)%nat eqn:Hj; [| done]. simpl.
  intros [= <-]. exists t1, t0.
  apply Nat.ltb_lt in Hi. apply Nat.ltb_lt in Hj. done.
Qed.

Lemma cell_passes_goes_through (i j : nat) :
  cell_passes raw cell_properties i j = true →
  ∃ t1, Tuples axe1 !! i = Some t1
        ∧ cell_goes_through raw cell_properties (map Name (Dimensions (Cube raw)))
            axe0 elements_on_axe2 (unique_names t1) j
            (i * Z.to_nat (Cardinality axe0) + j).
Proof using Haxe0 Haxe1 Htitle.
  unfold cell_passes.
  destruct (coordinates_at raw i j) as [coordinates|] eqn:Hcoord; [| done].
  apply coordinates_at_Some in Hcoord as (t1 & t0 & Ht1 & Ht0 & _ & _ & ->).
  destruct (sort_addresstuple _ _) as [coordinates_sorted|] eqn:Hsort; [| done].
  intros Hprops. exists t1. split; [done |].
  exists t0, coordinates_sorted. split; [done |]. split; [done |].
  unfold cell_has_properties. apply Forall_forall. intros p Hp.
  rewrite forallb_forall in Hprops. specialize (Hprops p).
  rewrite <- list_elem_of_In in Hprops. specialize (Hprops Hp).
  rewrite n_columns_axe0 in Hprops.
  destruct (Cells raw !! _) as [cell|]; [| done].
  exists cell. split; [done |]. by apply bool_decide_eq_true in Hprops.
Qed.

Lemma build_content_body_rows_loop (top : option Z) (st : fstate Val) :
  build_content_body raw cell_properties top st
  = rows_loop raw cell_properties top (map Name (Dimensions (Cube raw)))
      axe0 axe1 elements_on_axe2 (Z.to_nat (Cardinality axe1)) 0 0 st.
Proof using Haxe0 Haxe1 Htitle.
  unfold build_content_body, bind at 1, index. rewrite Haxe0. simpl.
  unfold bind at 1. rewrite Haxe1. simpl.
  unfold bind at 1. unfold title_elements in Htitle.
  destruct (2 <? length (Axes raw))%nat.
  - unfold bind at 1, index.
    destruct (Axes raw !! 2) as [axe2|]; [| done]. simpl in *.
    unfold bind at 1.
    destruct (Tuples axe2 !! 0) as [t|]; [| done]. simpl in *.
    by injection Htitle as <-.
  - simpl. by injection Htitle as <-.
Qed.
End ReachFacts.

Lemma cells_before_row {Val : Type} (raw : raw_cellset Val) (i j i' j' : nat) :
  (i' < i)%nat → (j' < n_columns raw)%nat → (i', j') ∈ cells_before raw i j.
Proof.
  intros Hi Hj. unfold cells_before. apply elem_of_app. left.
  apply list_elem_of_In, in_flat_map. exists i'. split.
  - apply in_seq. lia.
  - apply in_map, in_seq. lia.
Qed.

Lemma cells_before_column {Val : Type} (raw : raw_cellset Val) (i j j' : nat) :
  (j' < j)%nat → (i, j') ∈ cells_before raw i j.
Proof.
  intros Hj. unfold cells_before. apply elem_of_app. right.
  apply list_elem_of_In, in_map, in_seq. lia.
Qed.

(** C6. A missing dimension is an error.  [sort_addresstuple] fails with
    [DimensionNotFound] when a dimension of [dimension_order] has no
    label opening with ["[dimension]."] in the tuple; and
    [build_content_from_cellset] fails with it on a raw cellset whose
    coordinates at some row [i] and column [j] miss a dimension of the
    cube, when the cells visited before go through and the limit does
    not end the loops before that cell. *)
Theorem missing_dimension_fails :
  (∀ (dimension_order unsorted : list string) (d : string),
     d ∈ dimension_order → dimension_missing d unsorted →
     sort_addresstuple dimension_order unsorted = Raise DimensionNotFound)
  ∧ (∀ (Val : Type) (raw : raw_cellset Val) (cell_properties : list string)
       (top : option Z) (i j : nat) (coordinates : list string) (d : string),
       coordinates_at raw i j = Some coordinates →
       d ∈ map Name (Dimensions (Cube raw)) →
       dimension_missing d coordinates →
       forallb (λ c, cell_passes raw cell_properties c.1 c.2) (cells_before raw i j)
       = true →
       not_cut_before top (i * n_columns raw + j) = true →
       build_content_from_cellset raw cell_properties top = Raise DimensionNotFound
       ∧ ∃ st, build_content_run raw cell_properties top
               = (st, Raise DimensionNotFound)).
Proof.
  split; [apply sort_addresstuple_missing |].
  intros Val raw cell_properties top i j coordinates d Hcoord Hd Hmiss Hbefore Hcut.
  assert (∃ st, build_content_run raw cell_properties top
                = (st, Raise DimensionNotFound)) as [st Hrun];
    [| split; [unfold build_content_from_cellset; by rewrite Hrun | by exists st]].
  pose proof Hcoord as Hcoord'. unfold coordinates_at in Hcoord'.
  destruct (Axes raw !! 0) as [axe0|] eqn:Haxe0; [| done].
  destruct (Axes raw !! 1) as [axe1|] eqn:Haxe1; [| done].
  destruct (title_elements raw) as [elements_on_axe2|] eqn:Htitle; [| done].
  clear Hcoord'.
  destruct (coordinates_at_Some raw axe0 axe1 elements_on_axe2 Haxe0 Haxe1 Htitle
              i j coordinates Hcoord) as (t1 & t0 & Ht1 & Ht0 & Hi & Hj & ->).
  rewrite (n_rows_axe1 raw axe1 Haxe1) in Hi.
  rewrite (n_columns_axe0 raw axe0 Haxe0) in Hj, Hcut.
  rewrite forallb_forall in Hbefore.
  unfold build_content_run.
  rewrite (build_content_body_rows_loop raw cell_properties axe0 axe1 elements_on_axe2
             Haxe0 Haxe1 Htitle).
  apply (rows_loop_raises raw cell_properties top _ axe0 axe1 elements_on_axe2
           _ DimensionNotFound j i 0 t1 t0); try done.
  - intros k' j' Hk' Hj'.
    apply (cell_passes_goes_through raw cell_properties axe0 axe1 elements_on_axe2
             Haxe0 Haxe1 Htitle).
    apply (Hbefore (k', j')), list_elem_of_In, cells_before_row; [done |].
    by rewrite (n_columns_axe0 raw axe0 Haxe0).
  - intros j' Hj'.
    destruct (cell_passes_goes_through raw cell_properties axe0 axe1 elements_on_axe2
                Haxe0 Haxe1 Htitle i j') as (t1' & Ht1' & Hgo).
    + by apply (Hbefore (i, j')), list_elem_of_In, cells_before_column.
    + by simplify_eq.
  - by apply (sort_addresstuple_missing _ _ d).
  - unfold not_cut_before in Hcut. simpl.
    destruct (i * Z.to_nat (Cardinality axe0) + j)%nat; [by left | right].
    by apply negb_true_iff in Hcut.
Qed.

Lemma missing_dimension_fails_witness :
  sort_addresstuple ["Business Unit"; "Scenario"]
    ["[Scenario].[Actual]"; "[Region].[EMEA]"] = Raise DimensionNotFound
  ∧ build_content_from_cellset broken_cellset ["Value"] None = Raise DimensionNotFound
  ∧ ∃ st, build_content_run broken_cellset ["Value"] None
          = (st, Raise DimensionNotFound).
Proof.
  assert (∀ labels : list string,
            forallb (λ item, negb (startswith item "[Business Unit].")) labels = true →
            dimension_missing "Business Unit" labels) as Hmiss.
  { intros labels Hall item Hin. rewrite forallb_forall in Hall.
    apply negb_true_iff, Hall. by apply list_elem_of_In. }
  split.
  - apply (proj1 missing_dimension_fails
             ["Business Unit"; "Scenario"]
             ["[Scenario].[Actual]"; "[Region].[EMEA]"] "Business Unit").
    + by left.
    + by apply Hmiss.
  - apply (proj2 missing_dimension_fails Z broken_cellset ["Value"] None 1 0
             ["[Scenario].[Actual]"; "[Region].[EMEA]"] "Business Unit").
    + reflexivity.
    + by left.
    + by apply Hmiss.
    + vm_compute. reflexivity.
    + reflexivity.
Defined.

(** With [top = 2] the loops are left before the broken row is reached,
    and the same cellset flattens into two entries. *)
Example broken_cellset_top_2 :
  ∃ content,
    build_content_from_cellset broken_cellset ["Value"] (Some 2%Z) = Ok content
    ∧ CaseAndSpaceInsensitiveTuplesDict.iter content = take 2 sample_coordinates.
Proof. eexists. split; [vm_compute; reflexivity | reflexivity]. Qed.

(** The limit can end the loops before the incomplete coordinates are
    put together: the coordinates of row 1 of [broken_cellset] have no
    label of [Business Unit] and do not sort, yet with [top = 2] the call
    returns the two entries of row 0 and raises nothing. *)
Lemma missing_dimension_unreached :
  coordinates_at broken_cellset 1 0 = Some ["[Scenario].[Actual]"; "[Region].[EMEA]"]
  ∧ "Business Unit" ∈ map Name (Dimensions (Cube broken_cellset))
  ∧ dimension_missing "Business Unit" ["[Scenario].[Actual]"; "[Region].[EMEA]"]
  ∧ sort_addresstuple (map Name (Dimensions (Cube broken_cellset)))
      ["[Scenario].[Actual]"; "[Region].[EMEA]"]
    = Raise DimensionNotFound
  ∧ build_content_from_cellset broken_cellset ["Value"] (Some 2%Z)
    ≠ Raise DimensionNotFound
  ∧ ∃ content,
      build_content_from_cellset broken_cellset ["Value"] (Some 2%Z) = Ok content
      ∧ CaseAndSpaceInsensitiveTuplesDict.len content = 2.
Proof.
  split; [reflexivity |]. split; [by left |]. split.
  { intros item Hin.
    apply elem_of_cons in Hin as [->|Hin]; [reflexivity |].
    apply list_elem_of_singleton in Hin as ->. reflexivity. }
  split; [reflexivity |]. split; [by vm_compute |].
  eexists. split; [vm_compute; reflexivity | reflexivity].
Qed.

(** * More of the module *)

(** ** Deleting, overwriting and rebuilding an insensitive mapping *)

Section OrderedDictMore.
Context {A B : Type} `{EqDecision A}.
Implicit Types (d : odict A B) (k : A) (b : B).

Lemma od_getitem_app k d1 d2 :
  od_getitem k (d1 ++ d2)
  = match od_getitem k d1 with Some b => Some b | None => od_getitem k d2 end.
Proof.
  induction d1 as [|[k' b'] d1 IH]; simpl; [done |].
  by destruct (decide (k = k')).
Qed.

Lemma od_delitem_first k d d' :
  od_delitem k d = Some d' →
  ∃ d1 b d2, d = d1 ++ (k, b) :: d2 ∧ d' = d1 ++ d2 ∧ k ∉ od_keys d1.
Proof.
  revert d'. induction d as [|[k0 b0] d IH]; intros d'; simpl; [done |].
  destruct (decide (k = k0)) as [->|Hne].
  - intros [= <-]. exists [], b0, d. repeat split. apply not_elem_of_nil.
  - destruct (od_delitem k d) as [d''|]; [| done].
    intros [= <-]. destruct (IH d'' eq_refl) as (d1 & b & d2 & -> & -> & Hnin).
    exists ((k0, b0) :: d1), b, d2. repeat split.
    simpl. by apply not_elem_of_cons.
Qed.

Lemma od_delitem_None k d : od_delitem k d = None ↔ k ∉ od_keys d.
Proof.
  induction d as [|[k0 b0] d IH]; simpl.
  - split; [intros _; apply not_elem_of_nil | done].
  - rewrite not_elem_of_cons. destruct (decide (k = k0)) as [->|Hne].
    + split; [done | by intros [? _]].
    + destruct (od_delitem k d); [| tauto].
      split; [done |]. intros [_ Hnin]. by apply IH in Hnin.
Qed.

Lemma od_delitem_setitem_absent k b d :
  k ∉ od_keys d → od_delitem k (od_setitem k b d) = Some d.
Proof.
  induction d as [|[k0 b0] d IH]; simpl.
  - intros _. by rewrite decide_True.
  - rewrite not_elem_of_cons. intros [Hne Hnin].
    rewrite decide_False by done. simpl. rewrite decide_False by done.
    by rewrite IH.
Qed.

Lemma od_setitem_setitem k b b' d :
  od_setitem k b' (od_setitem k b d) = od_setitem k b' d.
Proof.
  induction d as [|[k0 b0] d IH]; simpl.
  - by rewrite decide_True.
  - destruct (decide (k = k0)) as [->|Hne]; simpl.
    + by rewrite decide_True.
    + by rewrite decide_False, IH.
Qed.

Lemma od_keys_app d1 d2 : od_keys (d1 ++ d2) = od_keys d1 ++ od_keys d2.
Proof. unfold od_keys. apply map_app. Qed.
End OrderedDictMore.

Lemma map_delete_middle {A B : Type} (f : A → B) (l1 l2 : list A) (x : A) :
  map f (l1 ++ l2) = delete (length l1) (map f (l1 ++ x :: l2)).
Proof. induction l1 as [|a l1 IH]; simpl; [done | by rewrite IH]. Qed.

Section InsensitiveMappingMore.
Context {K NK V : Type} `{EqDecision NK} (adjust_key : K → NK).
Implicit Types (m : store K NK V) (key : K) (value : V).

(** X1. [del m[key]] on a mapping that has the adjusted key: the entry
    goes, the other entries stay where they were, lookups of the
    adjusted key fail from then on and every other lookup is unchanged;
    the mapping is one entry shorter and still satisfies the class
    invariant. *)
Theorem delitem_removes m m' key :
  wf adjust_key m →
  delitem adjust_key m key = Ok m' →
  wf adjust_key m'
  ∧ len m = S (len m')
  ∧ (∃ i, adjusted_keys m !! i = Some (adjust_key key)
          ∧ store_values m' = delete i (store_values m)
          ∧ adjusted_keys m' = delete i (adjusted_keys m))
  ∧ (∀ key', adjust_key key' = adjust_key key →
             getitem adjust_key m' key' = Raise KeyNotFound)
  ∧ (∀ key', adjust_key key' ≠ adjust_key key →
             getitem adjust_key m' key' = getitem adjust_key m key').
Proof.
  intros Hwf Hdel. split; [by apply (wf_delitem adjust_key m m' key) |].
  unfold delitem in Hdel.
  destruct (od_delitem (adjust_key key) m) as [m''|] eqn:Hod; [| done].
  injection Hdel as ->.
  apply od_delitem_first in Hod as (m1 & e & m2 & -> & -> & Hnin1).
  destruct Hwf as [Hnd _]. rewrite od_keys_app in Hnd. simpl in Hnd.
  apply NoDup_app in Hnd as (_ & _ & [Hnin2 _]%NoDup_cons).
  split; [unfold len; rewrite !length_app; simpl; lia |].
  split.
  - exists (length m1). unfold adjusted_keys, store_values, od_values, od_keys.
    split; [| split; apply map_delete_middle].
    rewrite map_app. simpl.
    rewrite lookup_app_r by (by rewrite length_map).
    by rewrite length_map, Nat.sub_diag.
  - split; intros key' Hkey'; unfold getitem; rewrite !od_getitem_app.
    + rewrite Hkey'.
      apply od_getitem_None in Hnin1 as ->. by apply od_getitem_None in Hnin2 as ->.
    + simpl. by rewrite decide_False.
Qed.

(** X2. [del m[key]] succeeds exactly when the adjusted key is stored;
    otherwise it fails with [KeyNotFound]. *)
Theorem delitem_fails_iff_absent m key :
  (delitem adjust_key m key = Raise KeyNotFound ↔ adjust_key key ∉ adjusted_keys m)
  ∧ ((∃ m', delitem adjust_key m key = Ok m') ↔ adjust_key key ∈ adjusted_keys m).
Proof.
  unfold delitem, adjusted_keys.
  pose proof (od_delitem_None (adjust_key key) m) as Hnone.
  destruct (od_delitem (adjust_key key) m) as [m'|].
  - assert (adjust_key key ∈ od_keys m) as Hin.
    { destruct (decide (adjust_key key ∈ od_keys m)); [done |].
      by apply Hnone in n. }
    split; split; try done. by exists m'.
  - assert (adjust_key key ∉ od_keys m) as Hnin by by apply Hnone.
    split; split; try done. by intros [m' ?].
Qed.

(** X3. Assigning to a new key and deleting it again gives the mapping
    back: nothing else has moved. *)
Theorem setitem_delitem_round_trip m key key' value :
  adjust_key key ∉ adjusted_keys m →
  adjust_key key' = adjust_key key →
  delitem adjust_key (setitem adjust_key m key value) key' = Ok m.
Proof.
  intros Hnin Heq. unfold delitem, setitem. rewrite Heq.
  by rewrite od_delitem_setitem_absent.
Qed.

(** X4. A second assignment under the same adjusted key absorbs the
    first one: value and cased key are those written last, whatever the
    first assignment was. *)
Theorem setitem_overwrites m key key' value value' :
  adjust_key key = adjust_key key' →
  setitem adjust_key (setitem adjust_key m key value) key' value'
  = setitem adjust_key m key' value'.
Proof.
  intros Heq. unfold setitem. rewrite Heq. apply od_setitem_setitem.
Qed.
End InsensitiveMappingMore.

Lemma delitem_removes_witness :
  let m : store string string Z :=
    [("uk", ("UK", 1%Z)); ("france", ("France", 2%Z)); ("spain", ("Spain", 3%Z))] in
  let m' : store string string Z := [("uk", ("UK", 1%Z)); ("spain", ("Spain", 3%Z))] in
  wf adjust m'
  ∧ len m = S (len m')
  ∧ (∃ i, adjusted_keys m !! i = Some (adjust "FRANCE")
          ∧ store_values m' = delete i (store_values m)
          ∧ adjusted_keys m' = delete i (adjusted_keys m))
  ∧ (∀ key', adjust key' = adjust "FRANCE" → getitem adjust m' key' = Raise KeyNotFound)
  ∧ (∀ key', adjust key' ≠ adjust "FRANCE" →
             getitem adjust m' key' = getitem adjust m key').
Proof.
  intros m m'. apply (delitem_removes adjust m m' "FRANCE").
  - change (wf adjust (update adjust [] [("UK", 1%Z); ("France", 2%Z); ("Spain", 3%Z)])).
    apply wf_update, wf_init_nil.
  - reflexivity.
Defined.

Lemma setitem_delitem_round_trip_witness :
  delitem adjust
    (setitem adjust [("uk", ("UK", 1%Z))] "Travel Expenses" 2%Z) "travelexpenses"
  = Ok [("uk", ("UK", 1%Z))].
Proof.
  apply (setitem_delitem_round_trip adjust [("uk", ("UK", 1%Z))]
           "Travel Expenses" "travelexpenses" 2%Z).
  - vm_compute. by intros [=]%list_elem_of_singleton.
  - reflexivity.
Defined.

Lemma setitem_overwrites_witness :
  setitem adjust_tuple
    (setitem adjust_tuple [] ["[Business Unit].[UK]"] 1%Z) ["[businessunit].[uk]"] 2%Z
  = setitem adjust_tuple [] ["[businessunit].[uk]"] 2%Z.
Proof.
  apply (setitem_overwrites adjust_tuple []
           ["[Business Unit].[UK]"] ["[businessunit].[uk]"] 1%Z 2%Z).
  reflexivity.
Defined.

(** ** Building a mapping from data *)

Lemma find_snoc {A : Type} (f : A → bool) (l : list A) (x : A) :
  find f (l ++ [x])
  = match find f l with Some y => Some y | None => if f x then Some x else None end.
Proof. induction l as [|a l IH]; simpl; [done |]. by destruct (f a). Qed.

Section BuildFromData.
Context {K NK V : Type} `{EqDecision NK} (adjust_key : K → NK).
Implicit Types (m : store K NK V) (key : K) (value : V) (data : list (K * V)).

Lemma getitem_setitem_decide m key key' value :
  getitem adjust_key (setitem adjust_key m key value) key'
  = if decide (adjust_key key = adjust_key key') then Ok value
    else getitem adjust_key m key'.
Proof.
  destruct (decide _); [by apply getitem_setitem | by apply getitem_setitem_ne].
Qed.

(** X5. [update], and so [__init__], let the last pair written under an
    adjusted key win: a lookup in the updated mapping gives the value of
    the last pair of the data whose key has the adjusted form asked for,
    and what the mapping held before when the data has no such pair. *)
Theorem update_last_pair_wins m data key :
  getitem adjust_key (update adjust_key m data) key
  = match find (λ kv, bool_decide (adjust_key kv.1 = adjust_key key)) (reverse data) with
    | Some kv => Ok kv.2
    | None => getitem adjust_key m key
    end
  ∧ getitem adjust_key (init adjust_key data) key
    = match find (λ kv, bool_decide (adjust_key kv.1 = adjust_key key)) (reverse data) with
      | Some kv => Ok kv.2
      | None => Raise KeyNotFound
      end.
Proof.
  assert (∀ m, getitem adjust_key (update adjust_key m data) key
               = match find (λ kv, bool_decide (adjust_key kv.1 = adjust_key key))
                        (reverse data) with
                 | Some kv => Ok kv.2
                 | None => getitem adjust_key m key
                 end) as Hupdate.
  { clear m. induction data as [|[k v] data IH]; intros m; simpl; [done |].
    rewrite IH, reverse_cons, find_snoc.
    destruct (find _ (reverse data)); [done |]. simpl.
    rewrite getitem_setitem_decide.
    destruct (decide (adjust_key k = adjust_key key)).
    - by rewrite bool_decide_eq_true_2.
    - by rewrite bool_decide_eq_false_2. }
  split; [apply Hupdate |]. unfold init. by rewrite Hupdate.
Qed.

(** X6. Whatever the data, the mapping [__init__] builds satisfies the
    class invariant: no two entries share an adjusted key, the adjusted
    keys are the adjusted forms of the cased keys in the order of
    iteration, and there are at most as many entries as pairs of data. *)
Theorem init_establishes_invariant data :
  wf adjust_key (init adjust_key data)
  ∧ NoDup (adjusted_keys (init adjust_key data))
  ∧ adjusted_keys (init adjust_key data) = map adjust_key (iter (init adjust_key data))
  ∧ (len (init adjust_key data) ≤ length data)%nat.
Proof.
  pose proof (wf_update adjust_key [] data (wf_init_nil adjust_key)) as Hwf.
  split; [done |]. split; [apply Hwf |]. split.
  - destruct Hwf as [_ Hall]. fold (init adjust_key data) in Hall.
    unfold adjusted_keys, iter, od_keys, od_values.
    induction Hall as [|[nk [k v]] m Hk _ IH]; simpl; [done |].
    simpl in Hk. by rewrite Hk, IH.
  - unfold init.
    assert (∀ m : store K NK V,
              (len (update adjust_key m data) ≤ len m + length data)%nat)
      as Hlen; [| apply (Hlen [])].
    clear Hwf. unfold len in *.
    induction data as [|[k v] data' IH]; intros m; simpl; [lia |].
    etrans; [apply IH |].
    assert (length (setitem adjust_key m k v) ≤ S (length m))%nat; [| simpl; lia].
    unfold setitem.
    destruct (decide (adjust_key k ∈ od_keys m)) as [Hin|Hnin].
    + destruct (od_setitem_present _ (k, v) _ Hin) as (i & _ & ->).
      rewrite length_insert. lia.
    + rewrite od_setitem_absent by done. rewrite length_app. simpl. lia.
Qed.
End BuildFromData.

(** ** [__eq__] *)

Section EqualityFacts.
Context {K NK V : Type} `{Countable NK} `{EqDecision V} (adjust_key : K → NK).
Implicit Types (m : store K NK V) (key : K).

(** Rebuilding an instance from itself, key by key, gives the same store. *)
Lemma update_from_mapping_suffix (pre suf : store K NK V) :
  wf adjust_key (pre ++ suf) →
  update_from_mapping adjust_key pre (pre ++ suf) (iter suf) = Ok (pre ++ suf).
Proof.
  revert pre. induction suf as [|[nk [k v]] suf IH]; intros pre Hwf; simpl.
  - by rewrite app_nil_r.
  - pose proof Hwf as [Hnd Hall].
    apply Forall_app in Hall as [_ [Hk _]%Forall_cons]. simpl in Hk. subst nk.
    rewrite od_keys_app in Hnd. simpl in Hnd.
    apply NoDup_app in Hnd as (_ & Hdisj & _).
    assert (adjust_key k ∉ od_keys pre) as Hnin.
    { intros Hin. apply (Hdisj _ Hin). by left. }
    unfold getitem. rewrite od_getitem_app.
    apply od_getitem_None in Hnin as Hnone. rewrite Hnone. simpl.
    rewrite decide_True by done.
    unfold setitem. rewrite od_setitem_absent by done.
    replace (pre ++ (adjust_key k, (k, v)) :: suf)
      with ((pre ++ [(adjust_key k, (k, v))]) ++ suf) in * by (by rewrite <- app_assoc).
    by apply IH.
Qed.

Lemma init_from_mapping_wf m : wf adjust_key m → init_from_mapping adjust_key m = Ok m.
Proof. intros Hwf. apply (update_from_mapping_suffix [] m Hwf). Qed.

Lemma fold_insert_lookup (pairs : list (NK * V)) (d : gmap NK V) (nk : NK) :
  fold_left (λ d kv, <[kv.1 := kv.2]> d) pairs d !! nk
  = match od_getitem nk (reverse pairs) with Some v => Some v | None => d !! nk end.
Proof.
  revert d. induction pairs as [|[k v] pairs IH]; intros d; simpl; [done |].
  rewrite IH, reverse_cons, od_getitem_app.
  destruct (od_getitem nk (reverse pairs)); [done |]. simpl.
  destruct (decide (nk = k)) as [->|Hne].
  - by rewrite lookup_insert_eq.
  - by rewrite lookup_insert_ne.
Qed.

Lemma od_getitem_elem_of {B : Type} (l : list (NK * B)) (nk : NK) (b : B) :
  NoDup (od_keys l) → od_getitem nk l = Some b ↔ (nk, b) ∈ l.
Proof.
  induction l as [|[k b'] l IH]; simpl.
  - intros _. split; [done | by intros ?%elem_of_nil].
  - intros [Hnin Hnd]%NoDup_cons. rewrite elem_of_cons.
    destruct (decide (nk = k)) as [->|Hne].
    + split; [intros [= ->]; by left |].
      intros [[= ->]|Hin]; [done |]. destruct Hnin.
      apply list_elem_of_In, in_map_iff. exists (k, b).
      split; [done | by apply list_elem_of_In].
    + rewrite IH by done. split; [by right |]. intros [[= ? ?]|?]; done.
Qed.

Lemma od_getitem_reverse {B : Type} (l : list (NK * B)) (nk : NK) :
  NoDup (od_keys l) → od_getitem nk (reverse l) = od_getitem nk l.
Proof.
  intros Hnd.
  assert (NoDup (od_keys (reverse l))) as Hnd'.
  { unfold od_keys in *.
    assert (map fst (reverse l) ≡ₚ map fst l) as ->; [| done].
    apply Permutation_map, reverse_Permutation. }
  destruct (od_getitem nk l) as [b|] eqn:Hl.
  - apply od_getitem_elem_of in Hl; [| done].
    apply od_getitem_elem_of; [done |]. by apply elem_of_reverse.
  - destruct (od_getitem nk (reverse l)) as [b|] eqn:Hr; [| done].
    apply od_getitem_elem_of in Hr; [| done]. rewrite elem_of_reverse in Hr.
    apply (proj2 (od_getitem_elem_of l nk b Hnd)) in Hr. congruence.
Qed.

Lemma dict_of_adjusted_items m (nk : NK) :
  NoDup (od_keys m) →
  dict_of (adjusted_items m) !! nk = snd <$> od_getitem nk m.
Proof.
  intros Hnd. unfold dict_of. rewrite fold_insert_lookup, lookup_empty.
  assert (od_keys (adjusted_items m) = od_keys m) as Hkeys.
  { unfold adjusted_items, od_keys. rewrite map_map. by apply map_ext. }
  rewrite od_getitem_reverse by (by rewrite Hkeys).
  clear Hnd Hkeys. induction m as [|[k [ck v]] m IH]; simpl; [done |].
  destruct (decide (nk = k)); [done |]. apply IH.
Qed.

(** X7. [==] between two instances of the class compares what lookups
    give: it never fails, and it is [True] exactly when every key, in
    any casing and spacing, is looked up to the same result in both; the
    order of the entries and the casing of the stored keys play no part. *)
Theorem eq_mapping_compares_lookups (m1 m2 : store K NK V) :
  wf adjust_key m1 → wf adjust_key m2 →
  ∃ b, eq_mapping adjust_key m1 m2 = Ok b
       ∧ (b = true ↔ ∀ key, getitem adjust_key m1 key = getitem adjust_key m2 key).
Proof.
  intros Hwf1 Hwf2. unfold eq_mapping. rewrite (init_from_mapping_wf m2 Hwf2).
  eexists. split; [done |]. rewrite bool_decide_eq_true.
  destruct Hwf1 as [Hnd1 Hall1], Hwf2 as [Hnd2 Hall2].
  assert (∀ m key, NoDup (od_keys m) →
            getitem adjust_key m key
            = match dict_of (adjusted_items m) !! adjust_key key with
              | Some v => Ok v
              | None => Raise KeyNotFound
              end) as Hget.
  { intros m key Hnd. rewrite dict_of_adjusted_items by done. unfold getitem.
    by destruct (od_getitem (adjust_key key) m) as [[ck v]|]. }
  split.
  - intros Heq key. by rewrite !Hget, Heq.
  - intros Hlook. apply map_eq. intros nk.
    assert (∀ m m' : store K NK V,
              NoDup (od_keys m) → NoDup (od_keys m') →
              Forall (λ e, e.1 = adjust_key e.2.1) m →
              (∀ key, getitem adjust_key m key = getitem adjust_key m' key) →
              ∀ v, dict_of (adjusted_items m) !! nk = Some v →
                   dict_of (adjusted_items m') !! nk = Some v) as Hone.
    { intros m m' Hnd Hnd' Hall Hsame v Hv.
      rewrite dict_of_adjusted_items in Hv by done.
      destruct (od_getitem nk m) as [[ck v']|] eqn:Hnk; [| done].
      simpl in Hv. injection Hv as ->.
      apply od_getitem_elem_of in Hnk as Hin; [| done].
      rewrite Forall_forall in Hall. specialize (Hall _ Hin). simpl in Hall. subst nk.
      specialize (Hsame ck). rewrite !Hget in Hsame by done.
      rewrite dict_of_adjusted_items in Hsame at 1 by done.
      rewrite Hnk in Hsame. simpl in Hsame.
      by destruct (dict_of (adjusted_items m') !! adjust_key ck); simplify_eq. }
    destruct (dict_of (adjusted_items m1) !! nk) as [v|] eqn:H1.
    + symmetry. by apply (Hone m1 m2).
    + destruct (dict_of (adjusted_items m2) !! nk) as [v|] eqn:H2; [| done].
      apply (Hone m2 m1) in H2; [congruence | done.. |].
      intros key. by rewrite Hlook.
Qed.
End EqualityFacts.

Lemma eq_mapping_compares_lookups_witness :
  let m1 : store string string Z :=
    [("uk", ("UK", 1%Z)); ("travelexpenses", ("Travel Expenses", 2%Z))] in
  let m2 : store string string Z :=
    [("travelexpenses", ("travelexpenses", 2%Z)); ("uk", ("U K", 1%Z))] in
  ∃ b, eq_mapping adjust m1 m2 = Ok b
       ∧ (b = true ↔ ∀ key, getitem adjust m1 key = getitem adjust m2 key).
Proof.
  intros m1 m2. apply (eq_mapping_compares_lookups adjust m1 m2).
  - change (wf adjust (update adjust [] [("UK", 1%Z); ("Travel Expenses", 2%Z)])).
    apply wf_update, wf_init_nil.
  - change (wf adjust (update adjust [] [("travelexpenses", 2%Z); ("U K", 1%Z)])).
    apply wf_update, wf_init_nil.
Defined.

(** Two instances written in different orders and casings are equal. *)
Example eq_mapping_ignores_order_and_casing :
  eq_mapping adjust
    ([("uk", ("UK", 1%Z)); ("travelexpenses", ("Travel Expenses", 2%Z))]
       : store string string Z)
    [("travelexpenses", ("travelexpenses", 2%Z)); ("uk", ("U K", 1%Z))]
  = Ok true
  ∧ eq_mapping adjust
      ([("uk", ("UK", 1%Z))] : store string string Z) [("uk", ("UK", 5%Z))]
    = Ok false.
Proof. split; vm_compute; reflexivity. Qed.

(** ** More on [sort_addresstuple] *)

Lemma filter_head_find {A : Type} (f : A → bool) (l : list A) :
  head (List.filter f l) = find f l.
Proof. induction l as [|a l IH]; simpl; [done |]. by destruct (f a). Qed.

Lemma sort_addresstuple_Forall2 (dimension_order unsorted sorted : list string) :
  sort_addresstuple dimension_order unsorted = Ok sorted
  ↔ Forall2 (λ d x, find (opens_with d) unsorted = Some x) dimension_order sorted.
Proof.
  revert sorted. induction dimension_order as [|d ds IH]; intros sorted; simpl.
  - split; [intros [= <-]; constructor | by intros ->%Forall2_nil_inv_l].
  - pose proof (filter_head_find (opens_with d) unsorted) as Hhead.
    destruct (List.filter _ unsorted) as [|first rest]; simpl in Hhead.
    + split; [done |].
      intros (x & out & Hfind & _ & _)%Forall2_cons_inv_l. congruence.
    + destruct (sort_addresstuple ds unsorted) as [out|e] eqn:Hsort.
      * split.
        -- intros [= <-]. constructor; [done | by apply IH].
        -- intros (x & out' & Hfind & Hrest%IH & ->)%Forall2_cons_inv_l. congruence.
      * split; [done |].
        intros (x & out' & _ & Hrest%IH & _)%Forall2_cons_inv_l. congruence.
Qed.

(** X8. [sort_addresstuple] returns, dimension by dimension, the first
    label of the tuple, in the order given, that opens with
    ["[dimension]."]: this is all it returns, and it returns it whenever
    each dimension has such a label.  When two labels open with the same
    dimension, the later one is dropped without notice. *)
Theorem sort_addresstuple_picks_first_match
    (dimension_order unsorted sorted : list string) :
  sort_addresstuple dimension_order unsorted = Ok sorted
  ↔ Forall2 (λ d x, find (opens_with d) unsorted = Some x) dimension_order sorted.
Proof. apply sort_addresstuple_Forall2. Qed.

(** X9. [sort_addresstuple] succeeds exactly when every dimension of
    [dimension_order] has a label in the tuple. *)
Theorem sort_addresstuple_succeeds_iff (dimension_order unsorted : list string) :
  (∃ sorted, sort_addresstuple dimension_order unsorted = Ok sorted)
  ↔ ∀ d, d ∈ dimension_order → ∃ item, item ∈ unsorted ∧ opens_with d item = true.
Proof.
  split.
  - intros [sorted Hsort] d Hd.
    destruct (find (opens_with d) unsorted) as [item|] eqn:Hfind.
    + apply find_some in Hfind as [Hin Hopen]. exists item.
      split; [by apply list_elem_of_In | done].
    + rewrite (sort_addresstuple_missing dimension_order unsorted d) in Hsort; [done.. |].
      intros item Hitem. apply (find_none _ _ Hfind). by apply list_elem_of_In.
  - intros Hall. induction dimension_order as [|d ds IH]; simpl; [by exists [] |].
    destruct (Hall d) as (item & Hin & Hopen); [by left |].
    destruct (List.filter _ unsorted) as [|first rest] eqn:Hfilter.
    + assert (item ∈ List.filter (opens_with d) unsorted) as Hmem.
      { apply list_elem_of_In, filter_In. split; [by apply list_elem_of_In | done]. }
      rewrite Hfilter in Hmem. by apply elem_of_nil in Hmem.
    + destruct IH as [sorted ->]; [| by eexists].
      intros d' Hd'. apply Hall. by right.
Qed.

(** X10. On success the output of [sort_addresstuple] has one label for
    each dimension, in the order of the dimensions; each label comes from
    the input and opens with its dimension. *)
Theorem sort_addresstuple_output (dimension_order unsorted sorted : list string) :
  sort_addresstuple dimension_order unsorted = Ok sorted →
  length sorted = length dimension_order
  ∧ Forall2 (λ d x, x ∈ unsorted ∧ opens_with d x = true) dimension_order sorted.
Proof.
  intros Hsort%sort_addresstuple_Forall2. split.
  - symmetry. by eapply Forall2_length.
  - eapply Forall2_impl; [done |]. simpl. intros d x Hfind.
    apply find_some in Hfind as [Hin Hopen]. by apply list_elem_of_In in Hin.
Qed.

Lemma sort_addresstuple_output_witness :
  length ["[Business Unit].[UK]"; "[Scenario].[Actual]"]
  = length ["Business Unit"; "Scenario"]
  ∧ Forall2 (λ d x, x ∈ ["[Scenario].[Actual]"; "[Business Unit].[UK]";
                         "[Scenario].[Budget]"]
                    ∧ opens_with d x = true)
      ["Business Unit"; "Scenario"] ["[Business Unit].[UK]"; "[Scenario].[Actual]"].
Proof.
  apply (sort_addresstuple_output ["Business Unit"; "Scenario"]
           ["[Scenario].[Actual]"; "[Business Unit].[UK]"; "[Scenario].[Budget]"]).
  reflexivity.
Defined.

Lemma filter_only_match {A : Type} (f : A → bool) (l : list A) (i : nat) (x : A) :
  l !! i = Some x → f x = true →
  (∀ j y, j ≠ i → l !! j = Some y → f y = false) →
  List.filter f l = [x].
Proof.
  revert i. induction l as [|a l IH]; intros i Hi Hx Hothers; [done |].
  destruct i as [|i]; simpl in *.
  - injection Hi as ->. rewrite Hx. f_equal.
    assert (∀ y, y ∈ l → f y = false) as Hrest.
    { intros y [j Hj]%list_elem_of_lookup. by apply (Hothers (S j)). }
    clear -Hrest. induction l as [|b l IH]; simpl; [done |].
    rewrite (Hrest b) by (by left). apply IH. intros y Hy. apply Hrest. by right.
  - rewrite (Hothers 0 a) by done.
    apply (IH i); [done.. |]. intros j y Hj Hy. apply (Hothers (S j)); [lia | done].
Qed.

Lemma filter_Permutation_bool {A : Type} (f : A → bool) (l k : list A) :
  l ≡ₚ k → List.filter f l ≡ₚ List.filter f k.
Proof.
  induction 1 as [|a l k _ IH|a b l|l k1 k2 _ IH1 _ IH2]; simpl.
  - done.
  - destruct (f a); [by constructor | done].
  - destruct (f a), (f b); try done. apply perm_swap.
  - by etrans.
Qed.

(** X11. [sort_addresstuple] puts a mixed up coordinate back in order:
    when each label of [coordinate] opens with the dimension of its
    position and with no other dimension of the cube, every rearrangement
    of the labels is sorted back to [coordinate]. *)
Theorem sort_addresstuple_unmixes (dimension_order coordinate unsorted : list string) :
  Forall2 (λ d x, opens_with d x = true) dimension_order coordinate →
  (∀ i j d x, i ≠ j → dimension_order !! i = Some d → coordinate !! j = Some x →
              opens_with d x = false) →
  unsorted ≡ₚ coordinate →
  sort_addresstuple dimension_order unsorted = Ok coordinate.
Proof.
  intros Hown Hother Hperm. apply sort_addresstuple_Forall2.
  apply Forall2_same_length_lookup. split; [by eapply Forall2_length |].
  intros i d x Hd Hx. rewrite <- filter_head_find.
  assert (List.filter (opens_with d) coordinate = [x]) as Hfilter.
  { apply (filter_only_match _ _ i); [done | |].
    - by apply (Forall2_lookup_lr _ _ _ _ _ _ Hown Hd Hx).
    - intros j y Hj Hy. by apply (Hother i j). }
  pose proof (filter_Permutation_bool (opens_with d) _ _ Hperm) as Hp.
  rewrite Hfilter in Hp. by apply Permutation_singleton_r in Hp as ->.
Qed.

Lemma sort_addresstuple_unmixes_witness :
  sort_addresstuple ["Business Unit"; "Scenario"; "Year"]
    ["[Year].[2017]"; "[Business Unit].[UK]"; "[Scenario].[Actual]"]
  = Ok ["[Business Unit].[UK]"; "[Scenario].[Actual]"; "[Year].[2017]"].
Proof.
  apply (sort_addresstuple_unmixes ["Business Unit"; "Scenario"; "Year"]).
  - by repeat constructor.
  - intros [|[|[|i]]] [|[|[|j]]] d x Hij; simpl; intros [= <-] [= <-]; done.
  - apply (Permutation_cons_append
             ["[Business Unit].[UK]"; "[Scenario].[Actual]"] "[Year].[2017]").
Defined.

(** ** What a run of the flattener does to its state *)

Lemma bind_inv {Val A B : Type} (c : M (Val := Val) A) (k : A → M B)
    (st st' : fstate Val) (r : result B) :
  bind c k st = (st', r) →
  (∃ st1 a, c st = (st1, Ok a) ∧ k a st1 = (st', r))
  ∨ (∃ e, c st = (st', Raise e) ∧ r = Raise e).
Proof.
  unfold bind. destruct (c st) as [st1 [a|e]].
  - intros Hk. left. by exists st1, a.
  - intros [= <- <-]. right. by exists e.
Qed.

Lemma index_inv {Val A : Type} (l : list A) (i : nat) (st st' : fstate Val)
    (r : result A) :
  index l i st = (st', r) →
  st' = st ∧ match l !! i with Some a => r = Ok a | None => r = Raise StructureError end.
Proof. unfold index. destruct (l !! i); by intros [= <- <-]. Qed.

Section CellEffect.
Context {Val : Type}.
Variable raw : raw_cellset Val.
Variable cell_properties : list string.
Variable cube_dimensions : list string.
Variable axe0 : axis.
Variable elements_on_axe2 : list string.

(** The adjusted and the cased key of each entry, in order. *)
Local Abbreviation entry_keys st :=
  (map (λ e : list string * (list string * properties Val), (e.1, e.2.1))
       (content_as_dict st)).

Lemma store_property_effect (coordinates_sorted : list string) (p : string) (v : Val)
    (st st' : fstate Val) (r : result unit) :
  store_property coordinates_sorted p v st = (st', r) →
  entry_keys st' = entry_keys st
  ∧ cells_read st' = cells_read st
  ∧ (adjust_tuple coordinates_sorted ∈ od_keys (content_as_dict st) → r = Ok tt).
Proof.
  unfold store_property, CaseAndSpaceInsensitiveTuplesDict.getitem.
  destruct (getitem adjust_tuple (content_as_dict st) coordinates_sorted)
    as [d|e] eqn:Hget.
  - intros [= <- <-]. simpl. split; [| done].
    rewrite map_map. apply map_ext. intros e. by destruct (decide _).
  - intros [= <- <-]. split; [done |]. split; [done |].
    intros Hin. apply (getitem_present adjust_tuple) in Hin as [d Hd]. congruence.
Qed.

Lemma entry_keys_od_keys (st st' : fstate Val) :
  entry_keys st' = entry_keys st →
  od_keys (content_as_dict st') = od_keys (content_as_dict st).
Proof.
  intros Heq. unfold od_keys.
  assert (∀ l : list (list string * (list string * properties Val)),
            map fst l = map fst (map (λ e, (e.1, e.2.1)) l)) as Hfst.
  { intros l. rewrite map_map. by apply map_ext. }
  by rewrite (Hfst (content_as_dict st')), (Hfst (content_as_dict st)), Heq.
Qed.

(** Lines 106-108 on a key that is stored: the keys stay, the reads are
    reads of this cell, at most one for each property, and the only
    exception is that of reading the cell. *)
Lemma read_properties_effect (coordinates_sorted : list string) (ordinal_cells : nat)
    (props : list string) (st st' : fstate Val) (r : result unit) :
  adjust_tuple coordinates_sorted ∈ od_keys (content_as_dict st) →
  read_properties (Cells raw) coordinates_sorted ordinal_cells props st = (st', r) →
  entry_keys st' = entry_keys st
  ∧ (∃ k, (k ≤ length props)%nat
          ∧ cells_read st' = cells_read st ++ replicate k ordinal_cells)
  ∧ (r = Ok tt ∨ r = Raise StructureError)
  ∧ (r = Ok tt →
     Forall (λ cell_property,
               ∃ cell, Cells raw !! ordinal_cells = Some cell
                       ∧ is_Some (od_getitem cell_property cell)) props).
Proof.
  revert st. induction props as [|p props IH]; intros st Hkey; simpl.
  - intros [= <- <-]. split; [done |]. split; [| by split; [left |]].
    exists 0. by rewrite app_nil_r.
  - intros Hrun. apply bind_inv in Hrun as [(st1 & v & Hread & Hrun)|(e & Hread & ->)].
    + unfold read_cell in Hread.
      destruct (Cells raw !! ordinal_cells) as [cell|] eqn:Hcell; [| done].
      destruct (od_getitem p cell) as [v'|] eqn:Hv; [| done].
      injection Hread as <- <-.
      apply bind_inv in Hrun as [(st2 & [] & Hstore & Hrun)|(e & Hstore & ->)].
      * apply store_property_effect in Hstore as (Hkeys2 & Hreads2 & _).
        apply IH in Hrun as (Hkeys & (k & Hk & Hreads) & Hr & Hall).
        -- split; [by rewrite Hkeys, Hkeys2 |].
           split; [exists (S k); split; [lia |] |].
           { rewrite Hreads, Hreads2. simpl. by rewrite <- app_assoc. }
           split; [done |]. intros Hok. constructor; [| by apply Hall].
           exists cell. by rewrite Hv.
        -- by rewrite (entry_keys_od_keys _ _ Hkeys2).
      * apply store_property_effect in Hstore as (_ & _ & Hok).
        by specialize (Hok Hkey).
    + unfold read_cell in Hread.
      destruct (Cells raw !! ordinal_cells) as [cell|] eqn:Hcell.
      * destruct (od_getitem p cell) as [v'|]; [done |].
        injection Hread as <- <-. split; [done |].
        split; [by exists 1; split; [lia |] |]. split; [by right | done].
      * injection Hread as <- <-. split; [done |].
        split; [exists 0; split; [lia | by rewrite app_nil_r] |].
        split; [by right | done].
Qed.

(** Lines 100-108: either nothing is stored and the tuple or the sort has
    failed, or the sorted coordinates are stored with an empty [dict]
    and the properties are read. *)
Lemma cell_body_effect (elements_on_axe1 : list string) (j ordinal_cells : nat)
    (st st' : fstate Val) (r : result unit) :
  cell_body raw cell_properties cube_dimensions axe0 elements_on_axe2
            elements_on_axe1 j ordinal_cells st = (st', r) →
  (st' = st ∧ (r = Raise StructureError ∨ r = Raise DimensionNotFound))
  ∨ (∃ t0 coordinates_sorted,
       Tuples axe0 !! j = Some t0
       ∧ sort_addresstuple cube_dimensions
           (unique_names t0 ++ elements_on_axe2 ++ elements_on_axe1)
         = Ok coordinates_sorted
       ∧ entry_keys st'
         = map (λ e, (e.1, e.2.1))
             (CaseAndSpaceInsensitiveTuplesDict.setitem
                (content_as_dict st) coordinates_sorted [])
       ∧ (∃ k, (k ≤ length cell_properties)%nat
               ∧ cells_read st' = cells_read st ++ replicate k ordinal_cells)
       ∧ (r = Ok tt ∨ r = Raise StructureError)
       ∧ (r = Ok tt → cell_has_properties raw cell_properties ordinal_cells)).
Proof.
  unfold cell_body. intros Hrun.
  apply bind_inv in Hrun as [(st1 & t0 & Hindex & Hrun)|(e & Hindex & ->)].
  - apply index_inv in Hindex as [-> Ht0].
    destruct (Tuples axe0 !! j) as [t0'|] eqn:Htuple; [| done].
    injection Ht0 as <-.
    apply bind_inv in Hrun as [(st1 & coords & Hsort & Hrun)|(e & Hsort & ->)].
    + unfold lift in Hsort.
      destruct (sort_addresstuple _ _) as [coords'|e] eqn:Hsorted; [| done].
      injection Hsort as <- <-.
      apply bind_inv in Hrun as [(st2 & [] & Hstore & Hrun)|(e & Hstore & _)]; [| done].
      injection Hstore as <-.
      apply read_properties_effect in Hrun as (Hkeys & Hreads & Hr & Hall).
      * right. exists t0, coords'. by rewrite Hkeys.
      * simpl. unfold CaseAndSpaceInsensitiveTuplesDict.setitem, setitem.
        apply od_getitem_is_Some. rewrite od_getitem_setitem. eauto.
    + unfold lift in Hsort.
      destruct (sort_addresstuple _ _) as [coords'|e'] eqn:Hsorted; [done |].
      injection Hsort as <- <-. left. split; [done |].
      right. by rewrite (sort_addresstuple_raises _ _ _ Hsorted).
  - apply index_inv in Hindex as [-> Ht0].
    destruct (Tuples axe0 !! j); [done |]. injection Ht0 as <-.
    left. split; [done | by left].
Qed.
End CellEffect.

(** ** Invariants of a run

    A property [I ordinal_cells st] of the state that every cell keeps,
    from the number of the cell to the next number, holds when the run
    ends, however it ends.  The cell numbered [ordinal_cells] is only
    entered at the start, or after the tests of lines 111 and 113 have
    passed that number. *)

Section RunInvariant.
Context {Val : Type}.
Variable raw : raw_cellset Val.
Variable cell_properties : list string.
Variable top : option Z.
Variable I : nat → fstate Val → Prop.

Hypothesis I_cell :
  ∀ axe0 elements_on_axe2 elements_on_axe1 j ordinal_cells st st' r,
    ordinal_cells = 0 ∨ top_reached top ordinal_cells = false →
    I ordinal_cells st →
    cell_body raw cell_properties (map Name (Dimensions (Cube raw))) axe0
      elements_on_axe2 elements_on_axe1 j ordinal_cells st = (st', r) →
    I (S ordinal_cells) st'.

Lemma columns_loop_invariant (axe0 : axis) (elements_on_axe2 : list string) (n : nat) :
  ∀ elements_on_axe1 j ordinal_cells st st' r,
    ordinal_cells = 0 ∨ top_reached top ordinal_cells = false →
    I ordinal_cells st →
    columns_loop raw cell_properties top (map Name (Dimensions (Cube raw))) axe0
      elements_on_axe2 n elements_on_axe1 j ordinal_cells st = (st', r) →
    (∃ ordinal_cells', I ordinal_cells' st')
    ∧ (∀ x, r = Ok x → I x st')
    ∧ r ≠ Raise KeyNotFound.
Proof using I_cell.
  induction n as [|n IH]; intros elements_on_axe1 j oc st st' r Hentry HI; simpl.
  - intros [= <- <-]. split; [by exists oc |]. split; [by intros x [= <-] | done].
  - intros Hrun. apply bind_inv in Hrun as [(st1 & [] & Hcell & Hrun)|(e & Hcell & ->)].
    + pose proof (I_cell _ _ _ _ _ _ _ _ Hentry HI Hcell) as HI1.
      destruct (top_reached top (S oc)) eqn:Htop.
      * injection Hrun as <- <-. split; [by exists (S oc) |].
        split; [by intros x [= <-] | done].
      * apply (IH _ _ _ _ _ _ (or_intror Htop) HI1 Hrun).
    + pose proof (I_cell _ _ _ _ _ _ _ _ Hentry HI Hcell) as HI1.
      split; [by exists (S oc) |]. split; [done |].
      apply cell_body_effect in Hcell
        as [[_ [[=]|[=]]]|(_ & _ & _ & _ & _ & _ & [[=]|[=]] & _)]; by subst.
Qed.

Lemma rows_loop_invariant (axe0 axe1 : axis) (elements_on_axe2 : list string) (n : nat) :
  ∀ i ordinal_cells st st' r,
    ordinal_cells = 0 ∨ top_reached top ordinal_cells = false →
    I ordinal_cells st →
    rows_loop raw cell_properties top (map Name (Dimensions (Cube raw))) axe0 axe1
      elements_on_axe2 n i ordinal_cells st = (st', r) →
    (∃ ordinal_cells', I ordinal_cells' st') ∧ r ≠ Raise KeyNotFound.
Proof using I_cell.
  induction n as [|n IH]; intros i oc st st' r Hentry HI; simpl.
  - intros [= <- <-]. split; [by exists oc | done].
  - intros Hrun. apply bind_inv in Hrun as [(st1 & t1 & Hindex & Hrun)|(e & Hindex & ->)].
    + apply index_inv in Hindex as [-> _].
      apply bind_inv in Hrun as [(st2 & oc' & Hcols & Hrun)|(e & Hcols & ->)].
      * apply columns_loop_invariant in Hcols as (_ & Hok & _); [| done..].
        specialize (Hok oc' eq_refl).
        destruct (top_reached top oc') eqn:Htop.
        -- injection Hrun as <- <-. split; [by exists oc' | done].
        -- apply (IH _ _ _ _ _ (or_intror Htop) Hok Hrun).
      * apply columns_loop_invariant in Hcols as (Hex & _ & Hne); [| done..].
        split; [done |]. intros [= ->]. by apply Hne.
    + apply index_inv in Hindex as [-> Hr]. split; [by exists oc |].
      destruct (Tuples axe1 !! i); by simplify_eq.
Qed.

(** The run either stops at lines 77-88 with nothing done, or goes into
    the loops. *)
Lemma build_content_body_cases (st st' : fstate Val) (r : result unit) :
  build_content_body raw cell_properties top st = (st', r) →
  (st' = st ∧ r = Raise StructureError)
  ∨ (∃ axe0 axe1 elements_on_axe2,
       Axes raw !! 0 = Some axe0 ∧ Axes raw !! 1 = Some axe1
       ∧ title_elements raw = Some elements_on_axe2
       ∧ rows_loop raw cell_properties top (map Name (Dimensions (Cube raw)))
           axe0 axe1 elements_on_axe2 (Z.to_nat (Cardinality axe1)) 0 0 st
         = (st', r)).
Proof.
  destruct (Axes raw !! 0) as [axe0|] eqn:Haxe0;
    [destruct (Axes raw !! 1) as [axe1|] eqn:Haxe1;
       [destruct (title_elements raw) as [elements_on_axe2|] eqn:Htitle |] |].
  - rewrite (build_content_body_rows_loop raw cell_properties axe0 axe1
               elements_on_axe2 Haxe0 Haxe1 Htitle).
    intros Hrun. right. by exists axe0, axe1, elements_on_axe2.
  - unfold build_content_body, bind at 1, index. rewrite Haxe0. simpl.
    unfold bind at 1. rewrite Haxe1. simpl. unfold bind at 1.
    unfold title_elements in Htitle.
    destruct (2 <? length (Axes raw))%nat; [| done].
    unfold bind at 1, index.
    destruct (Axes raw !! 2) as [axe2|]; simpl in *; [| intros [= <- <-]; by left].
    unfold bind at 1.
    destruct (Tuples axe2 !! 0) as [t|]; simpl in *; [done |].
    intros [= <- <-]. by left.
  - unfold build_content_body, bind at 1, index. rewrite Haxe0. simpl.
    unfold bind at 1. rewrite Haxe1. simpl. intros [= <- <-]. by left.
  - unfold build_content_body, bind at 1, index. rewrite Haxe0. simpl.
    intros [= <- <-]. by left.
Qed.

Lemma build_content_run_invariant (st' : fstate Val) (r : result unit) :
  I 0 (FState CaseAndSpaceInsensitiveTuplesDict.empty []) →
  build_content_run raw cell_properties top = (st', r) →
  (∃ ordinal_cells, I ordinal_cells st') ∧ r ≠ Raise KeyNotFound.
Proof using I_cell.
  intros HI Hrun. unfold build_content_run in Hrun.
  apply build_content_body_cases in Hrun
    as [[-> ->]|(axe0 & axe1 & elements_on_axe2 & _ & _ & _ & Hrun)].
  - split; [by exists 0 | done].
  - by apply rows_loop_invariant in Hrun; [| left |].
Qed.
End RunInvariant.

Lemma setitem_length_le {K NK V : Type} `{EqDecision NK} (adjust_key : K → NK)
    (m : store K NK V) (key : K) (value : V) :
  (length (setitem adjust_key m key value) ≤ S (length m))%nat.
Proof.
  unfold setitem. destruct (decide (adjust_key key ∈ od_keys m)) as [Hin|Hnin].
  - destruct (od_setitem_present _ (key, value) _ Hin) as (i & _ & ->).
    rewrite length_insert. lia.
  - rewrite od_setitem_absent by done. rewrite length_app. simpl. lia.
Qed.

Lemma setitem_iter_Forall {K NK V : Type} `{EqDecision NK} (adjust_key : K → NK)
    (P : K → Prop) (m : store K NK V) (key : K) (value : V) :
  P key → Forall P (iter m) → Forall P (iter (setitem adjust_key m key value)).
Proof.
  intros Hkey Hall. destruct (decide (adjust_key key ∈ adjusted_keys m)) as [Hin|Hnin].
  - destruct (setitem_present adjust_key m key value Hin) as (i & _ & _ & _ & ->).
    by apply Forall_insert.
  - destruct (setitem_absent adjust_key m key value Hnin) as (_ & _ & ->).
    apply Forall_app. split; [done | by apply Forall_singleton].
Qed.

Lemma sort_addresstuple_opens (dimension_order unsorted sorted : list string) :
  sort_addresstuple dimension_order unsorted = Ok sorted →
  Forall2 (λ d x, opens_with d x = true) dimension_order sorted.
Proof.
  intros Hsort%sort_addresstuple_Forall2.
  eapply Forall2_impl; [done |]. simpl. intros d x Hfind.
  by apply find_some in Hfind as [_ Hopen].
Qed.

Section RunFacts.
Context {Val : Type}.
Implicit Types (raw : raw_cellset Val) (st : fstate Val).

Local Abbreviation entry_keys m :=
  (map (λ e : list string * (list string * properties Val), (e.1, e.2.1)) m).

Lemma entry_keys_length (m m' : store (list string) (list string) (properties Val)) :
  entry_keys m' = entry_keys m → length m' = length m.
Proof. intros Heq. apply (f_equal length) in Heq. by rewrite !length_map in Heq. Qed.

Lemma entry_keys_iter (m m' : store (list string) (list string) (properties Val)) :
  entry_keys m' = entry_keys m → iter m' = iter m.
Proof.
  intros Heq. unfold iter, od_values.
  assert (∀ l : store (list string) (list string) (properties Val),
            map fst (map snd l) = map snd (entry_keys l)) as Hsnd.
  { intros l. rewrite !map_map. by apply map_ext. }
  by rewrite !Hsnd, Heq.
Qed.

Lemma entry_keys_wf (m m' : store (list string) (list string) (properties Val)) :
  entry_keys m' = entry_keys m → wf adjust_tuple m → wf adjust_tuple m'.
Proof.
  intros Heq [Hnd Hall].
  assert (∀ l : store (list string) (list string) (properties Val),
            wf adjust_tuple l
            ↔ NoDup (map fst (entry_keys l))
              ∧ Forall (λ p, p.1 = adjust_tuple p.2) (entry_keys l)) as Hwf.
  { intros l. unfold wf, od_keys. rewrite map_map, Forall_map. simpl. done. }
  apply Hwf. rewrite Heq. by apply Hwf.
Qed.

(** X12. No exception of the flattener is a [KeyNotFound]: the lookup
    of line 108 finds the entry that line 105 has just stored.  A
    failing call fails with [DimensionNotFound] or [StructureError]. *)
Theorem flattener_never_raises_KeyNotFound raw (cell_properties : list string)
    (top : option Z) :
  (build_content_run raw cell_properties top).2 ≠ Raise KeyNotFound
  ∧ build_content_from_cellset raw cell_properties top ≠ Raise KeyNotFound.
Proof.
  assert ((build_content_run raw cell_properties top).2 ≠ Raise KeyNotFound) as Hrun.
  { destruct (build_content_run raw cell_properties top) as [st r] eqn:Hrun.
    by apply (build_content_run_invariant raw cell_properties top (λ _ _, True))
      in Hrun as [_ Hne]. }
  split; [done |]. unfold build_content_from_cellset.
  destruct (build_content_run raw cell_properties top) as [st [[]|e]]; [done |].
  simpl in Hrun. congruence.
Qed.

(** X13. [top] bounds what a run stores and reads.  With [top = t] the
    mapping has at most [max t 1] entries when the run ends, normally or
    not, and every cell that has been read has a number below
    [max t 1]. *)
Theorem top_bounds_the_run raw (cell_properties : list string) (t : Z) :
  let st := (build_content_run raw cell_properties (Some t)).1 in
  let bound := Z.to_nat (Z.max t 1) in
  (CaseAndSpaceInsensitiveTuplesDict.len (content_as_dict st) ≤ bound)%nat
  ∧ Forall (λ n, (n < bound)%nat) (cells_read st).
Proof.
  intros st bound. subst st.
  destruct (build_content_run raw cell_properties (Some t)) as [st r] eqn:Hrun.
  apply (build_content_run_invariant raw cell_properties (Some t)
           (λ oc st, (oc ≤ bound)%nat
                     ∧ (length (content_as_dict st) ≤ oc)%nat
                     ∧ Forall (λ n, (n < oc)%nat) (cells_read st)))
    in Hrun as [(oc & Hoc & Hlen & Hreads) _].
  - simpl. split; [unfold CaseAndSpaceInsensitiveTuplesDict.len, len; lia |].
    eapply Forall_impl; [done |]. simpl. lia.
  - intros axe0 el2 el1 j oc st0 st1 r1 Hentry (Hoc & Hlen & Hreads) Hcell.
    assert (oc < bound)%nat as Hlt.
    { destruct Hentry as [-> | Htop]; [unfold bound; lia |].
      simpl in Htop. apply Z.leb_gt in Htop. unfold bound. lia. }
    split; [lia |].
    apply cell_body_effect in Hcell
      as [[-> _]|(_ & coords & _ & _ & Hkeys & (k & _ & Hk) & _)].
    + split; [lia |]. eapply Forall_impl; [done |]. simpl. lia.
    + split.
      * rewrite (entry_keys_length _ _ Hkeys).
        pose proof (setitem_length_le adjust_tuple (content_as_dict st0) coords []).
        unfold CaseAndSpaceInsensitiveTuplesDict.setitem. lia.
      * rewrite Hk. apply Forall_app. split.
        -- eapply Forall_impl; [done |]. simpl. lia.
        -- apply Forall_replicate. lia.
  - simpl. split; [unfold bound; lia |]. split; [lia | constructor].
Qed.

(** X14. The keys of the mapping a run has built are coordinates of the
    cube: each key has one label for each dimension of the cube, in the
    order of the dimensions, and the mapping satisfies the invariant of
    its class. *)
Theorem flattener_keys_are_coordinates raw (cell_properties : list string)
    (top : option Z) :
  let st := (build_content_run raw cell_properties top).1 in
  Forall (λ key, Forall2 (λ d x, opens_with d x = true)
                         (map Name (Dimensions (Cube raw))) key)
         (CaseAndSpaceInsensitiveTuplesDict.iter (content_as_dict st))
  ∧ Forall (λ key, length key = length (Dimensions (Cube raw)))
           (CaseAndSpaceInsensitiveTuplesDict.iter (content_as_dict st))
  ∧ wf adjust_tuple (content_as_dict st).
Proof.
  intros st. subst st.
  destruct (build_content_run raw cell_properties top) as [st r] eqn:Hrun.
  apply (build_content_run_invariant raw cell_properties top
           (λ _ st, Forall (λ key, Forall2 (λ d x, opens_with d x = true)
                                           (map Name (Dimensions (Cube raw))) key)
                           (iter (content_as_dict st))
                    ∧ wf adjust_tuple (content_as_dict st)))
    in Hrun as [(_ & Hkeys & Hwf) _].
  - simpl. split; [done |]. split; [| done].
    eapply Forall_impl; [done |]. simpl. intros key Hkey.
    apply Forall2_length in Hkey. by rewrite length_map in Hkey.
  - intros axe0 el2 el1 j oc st0 st1 r1 _ [Hall Hwf] Hcell.
    apply cell_body_effect in Hcell
      as [[-> _]|(t0 & coords & _ & Hsort & Hkeys & _)]; [done |].
    split.
    + rewrite (entry_keys_iter _ _ Hkeys).
      apply setitem_iter_Forall; [| done]. by apply sort_addresstuple_opens in Hsort.
    + apply (entry_keys_wf _ _ Hkeys). by apply wf_setitem.
  - simpl. split; [constructor | apply wf_init_nil].
Qed.

(** X15. When no cell property is asked for, the flattener never reads
    [Cells]: the run leaves no read behind, however it ends. *)
Theorem no_property_no_read raw (top : option Z) :
  cells_read (build_content_run raw [] top).1 = [].
Proof.
  destruct (build_content_run raw [] top) as [st r] eqn:Hrun.
  apply (build_content_run_invariant raw [] top (λ _ st, cells_read st = []))
    in Hrun as [[_ Hreads] _]; [done | | done].
  intros axe0 el2 el1 j oc st0 st1 r1 _ Hreads Hcell.
  apply cell_body_effect in Hcell
    as [[-> _]|(_ & _ & _ & _ & _ & (k & Hk & Hread) & _)]; [done |].
  simpl in Hk. assert (k = 0) as -> by lia.
  by rewrite Hread, app_nil_r.
Qed.
End RunFacts.

(** ** Empty axes *)

Lemma rows_loop_no_columns {Val : Type} (raw : raw_cellset Val)
    (cell_properties : list string) (top : option Z) (cube_dimensions : list string)
    (axe0 axe1 : axis) (elements_on_axe2 : list string) (n : nat) :
  Z.to_nat (Cardinality axe0) = 0 →
  ∀ i st, (i + n ≤ length (Tuples axe1))%nat →
          rows_loop raw cell_properties top cube_dimensions axe0 axe1 elements_on_axe2
                    n i 0 st = (st, Ok tt).
Proof.
  intros Hc0. induction n as [|n IH]; intros i st Hlen; simpl; [done |].
  unfold bind at 1, index.
  destruct (lookup_lt_is_Some_2 (Tuples axe1) i) as [t1 ->]; [lia |]. simpl.
  unfold bind at 1. rewrite Hc0. simpl.
  destruct (top_reached top 0); [done |]. apply IH. lia.
Qed.

(** X16. An axis without tuples gives an empty mapping and no error.
    With two axes and a readable title axis, a row axis of cardinality
    zero (or less) ends the run at once; so does a column axis of
    cardinality zero, provided the row axis has the tuples its
    cardinality announces.  Nothing is stored and no cell is read. *)
Theorem empty_axis_gives_empty_mapping {Val : Type} (raw : raw_cellset Val)
    (cell_properties : list string) (top : option Z) (axe0 axe1 : axis)
    (elements_on_axe2 : list string) :
  Axes raw !! 0 = Some axe0 → Axes raw !! 1 = Some axe1 →
  title_elements raw = Some elements_on_axe2 →
  (Cardinality axe1 ≤ 0)%Z
  ∨ ((Cardinality axe0 ≤ 0)%Z
     ∧ (Z.to_nat (Cardinality axe1) ≤ length (Tuples axe1))%nat) →
  build_content_run raw cell_properties top
  = (FState CaseAndSpaceInsensitiveTuplesDict.empty [], Ok tt)
  ∧ build_content_from_cellset raw cell_properties top
    = Ok CaseAndSpaceInsensitiveTuplesDict.empty.
Proof.
  intros Haxe0 Haxe1 Htitle Hempty.
  assert (build_content_run raw cell_properties top
          = (FState CaseAndSpaceInsensitiveTuplesDict.empty [], Ok tt)) as Hrun.
  { unfold build_content_run.
    rewrite (build_content_body_rows_loop raw cell_properties axe0 axe1
               elements_on_axe2 Haxe0 Haxe1 Htitle).
    destruct Hempty as [Hrows | [Hcols Htuples]].
    - by replace (Z.to_nat (Cardinality axe1)) with 0 by lia.
    - apply rows_loop_no_columns; lia. }
  split; [done |]. unfold build_content_from_cellset. by rewrite Hrun.
Qed.

Lemma empty_axis_gives_empty_mapping_witness :
  let raw := RawCellset (Cube sample_cellset) [Axis 0 []; sample_rows]
                        (Cells sample_cellset) in
  build_content_run raw ["Value"] None
  = (FState CaseAndSpaceInsensitiveTuplesDict.empty [], Ok tt)
  ∧ build_content_from_cellset raw ["Value"] None
    = Ok CaseAndSpaceInsensitiveTuplesDict.empty.
Proof.
  intros raw.
  apply (empty_axis_gives_empty_mapping raw ["Value"] None (Axis 0 []) sample_rows []).
  - reflexivity.
  - reflexivity.
  - reflexivity.
  - right. simpl. lia.
Defined.

(** ** A cell that is missing *)

Section CellMissing.
Context {Val : Type}.
Variable raw : raw_cellset Val.
Variable cell_properties : list string.
Variable top : option Z.
Variable cube_dimensions : list string.
Variable axe0 axe1 : axis.
Variable elements_on_axe2 : list string.

Local Abbreviation one_cell :=
  (cell_body raw cell_properties cube_dimensions axe0 elements_on_axe2).
Local Abbreviation columns :=
  (columns_loop raw cell_properties top cube_dimensions axe0 elements_on_axe2).
Local Abbreviation rows :=
  (rows_loop raw cell_properties top cube_dimensions axe0 axe1 elements_on_axe2).
Local Abbreviation goes_through :=
  (cell_goes_through raw cell_properties cube_dimensions axe0 elements_on_axe2).

(** The coordinates sort, but the cell lacks a requested property or is
    not there at all: the cell body raises [StructureError]. *)
Lemma cell_body_missing_cell (elements_on_axe1 : list string) (j ordinal_cells : nat)
    (t0 : tuple_) (coordinates_sorted : list string) (st : fstate Val) :
  Tuples axe0 !! j = Some t0 →
  sort_addresstuple cube_dimensions
    (unique_names t0 ++ elements_on_axe2 ++ elements_on_axe1) = Ok coordinates_sorted →
  ¬ cell_has_properties raw cell_properties ordinal_cells →
  ∃ st', one_cell elements_on_axe1 j ordinal_cells st = (st', Raise StructureError).
Proof.
  intros Ht0 Hsort Hmissing.
  unfold cell_body, bind at 1, index. rewrite Ht0. simpl.
  unfold bind at 1. rewrite Hsort. simpl.
  unfold bind at 1, store_empty.
  destruct (read_properties _ _ _ _ _) as [st' r] eqn:Hread.
  exists st'. f_equal.
  apply read_properties_effect in Hread as (_ & _ & [-> | ->] & Hok); [| done |].
  - destruct Hmissing. by apply Hok.
  - simpl. unfold CaseAndSpaceInsensitiveTuplesDict.setitem, setitem.
    apply od_getitem_is_Some. rewrite od_getitem_setitem. eauto.
Qed.

(** The inner loop stops at the first column whose cell body raises, when
    the columns before it go through and the limit does not end the loop
    first. *)
Lemma columns_loop_stops (n : nat) (elements_on_axe1 : list string) (e : exn) :
  ∀ (k j0 ordinal_cells : nat) (st : fstate Val),
    (k < n)%nat →
    (∀ k', (k' < k)%nat →
           goes_through elements_on_axe1 (j0 + k') (ordinal_cells + k')) →
    (∀ st, ∃ st', one_cell elements_on_axe1 (j0 + k) (ordinal_cells + k) st
                  = (st', Raise e)) →
    k = 0 ∨ top_reached top (ordinal_cells + k) = false →
    ∃ st', columns n elements_on_axe1 j0 ordinal_cells st = (st', Raise e).
Proof.
  induction n as [|n IH]; intros k j0 ordinal_cells st Hk Hcells Hraise Htop; [lia |].
  simpl. unfold bind at 1. destruct k as [|k].
  - rewrite !Nat.add_0_r in Hraise. destruct (Hraise st) as [st' ->]. by exists st'.
  - destruct Htop as [? | Htop]; [lia |].
    destruct (cell_body_goes_through raw cell_properties cube_dimensions axe0
                elements_on_axe2 elements_on_axe1 j0 ordinal_cells st) as [st1 ->].
    { specialize (Hcells 0). rewrite !Nat.add_0_r in Hcells. apply Hcells. lia. }
    rewrite (top_reached_mono top (S ordinal_cells) (ordinal_cells + S k)) by (lia || done).
    apply (IH k (S j0) (S ordinal_cells) st1).
    + lia.
    + intros k' Hk'. specialize (Hcells (S k')).
      replace (S j0 + k') with (j0 + S k') by lia.
      replace (S ordinal_cells + k') with (ordinal_cells + S k') by lia.
      apply Hcells. lia.
    + intros st2.
      replace (S j0 + k) with (j0 + S k) by lia.
      replace (S ordinal_cells + k) with (ordinal_cells + S k) by lia.
      apply Hraise.
    + right. by replace (S ordinal_cells + k) with (ordinal_cells + S k) by lia.
Qed.

(** The outer loop stops at the first cell whose body raises: row
    [i0 + k], column [j]. *)
Lemma rows_loop_stops (n : nat) (e : exn) (j : nat) :
  let c0 := Z.to_nat (Cardinality axe0) in
  ∀ (k i0 : nat) (t1 : tuple_) (st : fstate Val),
    (k < n)%nat → (j < c0)%nat →
    (∀ k' j', (k' < k)%nat → (j' < c0)%nat →
       ∃ t1', Tuples axe1 !! (i0 + k') = Some t1'
              ∧ goes_through (unique_names t1') j' ((i0 + k') * c0 + j')) →
    Tuples axe1 !! (i0 + k) = Some t1 →
    (∀ j', (j' < j)%nat → goes_through (unique_names t1) j' ((i0 + k) * c0 + j')) →
    (∀ st, ∃ st', one_cell (unique_names t1) j ((i0 + k) * c0 + j) st
                  = (st', Raise e)) →
    ((i0 + k) * c0 + j = 0)%nat ∨ top_reached top ((i0 + k) * c0 + j) = false →
    ∃ st', rows n i0 (i0 * c0) st = (st', Raise e).
Proof.
  intros c0. induction n as [|n IH];
    intros k i0 t1 st Hk Hj Hrows Ht1 Hcols Hraise Htop; [lia |].
  simpl. unfold bind at 1, index. destruct k as [|k].
  - rewrite Nat.add_0_r in *. rewrite Ht1. simpl. unfold bind at 1.
    fold c0.
    destruct (columns_loop_stops c0 (unique_names t1) e j 0 (i0 * c0) st)
      as [st' ->]; try done.
    + destruct Htop as [? | Htop]; [left; lia | by right].
    + by exists st'.
  - destruct (Hrows 0 0) as (t1' & Ht1' & _); [lia | lia |].
    rewrite Nat.add_0_r in Ht1'. rewrite Ht1'. simpl. unfold bind at 1. fold c0.
    assert (top_reached top ((i0 + S k) * c0 + j) = false) as Htop'.
    { destruct Htop as [? | Htop]; [nia | done]. }
    destruct (columns_loop_goes_through raw cell_properties top cube_dimensions axe0
                elements_on_axe2 c0 (unique_names t1') 0 (i0 * c0) st)
      as [st1 ->].
    + intros j' Hj'. destruct (Hrows 0 j') as (t1'' & Ht1'' & Hgo); [lia | done |].
      rewrite Nat.add_0_r in Ht1'', Hgo. by simplify_eq.
    + apply (top_reached_mono top _ ((i0 + S k) * c0 + j)); [nia | done].
    + rewrite (top_reached_mono top (i0 * c0 + c0) ((i0 + S k) * c0 + j)) by (nia || done).
      replace (i0 * c0 + c0)%nat with (S i0 * c0)%nat by lia.
      apply (IH k (S i0) t1 st1); try done.
      * lia.
      * intros k' j' Hk' Hj'. replace (S i0 + k') with (i0 + S k') by lia.
        apply Hrows; [lia | done].
      * by replace (S i0 + k) with (i0 + S k) by lia.
      * replace (S i0 + k) with (i0 + S k) by lia. done.
      * replace (S i0 + k) with (i0 + S k) by lia. done.
      * replace (S i0 + k) with (i0 + S k) by lia. by right.
Qed.
End CellMissing.

(** X17. A cell that is not there is a [StructureError].  When the
    loops reach row [i] and column [j], where the coordinates sort, and
    [Cells] has no entry of that number, or an entry without one of the
    requested properties, [build_content_from_cellset] fails with
    [StructureError]. *)
Theorem missing_cell_fails {Val : Type} (raw : raw_cellset Val)
    (cell_properties : list string) (top : option Z) (i j : nat)
    (coordinates coordinates_sorted : list string) (cell_property : string) :
  coordinates_at raw i j = Some coordinates →
  sort_addresstuple (map Name (Dimensions (Cube raw))) coordinates
  = Ok coordinates_sorted →
  cell_property ∈ cell_properties →
  Cells raw !! (i * n_columns raw + j)%nat ≫= od_getitem cell_property = None →
  forallb (λ c, cell_passes raw cell_properties c.1 c.2) (cells_before raw i j) = true →
  not_cut_before top (i * n_columns raw + j) = true →
  build_content_from_cellset raw cell_properties top = Raise StructureError.
Proof.
  intros Hcoord Hsort Hprop Hlacks Hbefore Hcut.
  assert (∃ st, build_content_run raw cell_properties top
                = (st, Raise StructureError)) as [st Hrun];
    [| unfold build_content_from_cellset; by rewrite Hrun].
  pose proof Hcoord as Hcoord'. unfold coordinates_at in Hcoord'.
  destruct (Axes raw !! 0) as [axe0|] eqn:Haxe0; [| done].
  destruct (Axes raw !! 1) as [axe1|] eqn:Haxe1; [| done].
  destruct (title_elements raw) as [elements_on_axe2|] eqn:Htitle; [| done].
  clear Hcoord'.
  destruct (coordinates_at_Some raw axe0 axe1 elements_on_axe2 Haxe0 Haxe1 Htitle
              i j coordinates Hcoord) as (t1 & t0 & Ht1 & Ht0 & Hi & Hj & ->).
  rewrite (n_rows_axe1 raw axe1 Haxe1) in Hi.
  rewrite (n_columns_axe0 raw axe0 Haxe0) in Hj, Hcut, Hlacks.
  rewrite forallb_forall in Hbefore.
  unfold build_content_run.
  rewrite (build_content_body_rows_loop raw cell_properties axe0 axe1 elements_on_axe2
             Haxe0 Haxe1 Htitle).
  apply (rows_loop_stops raw cell_properties top _ axe0 axe1 elements_on_axe2
           _ StructureError j i 0 t1); try done.
  - intros k' j' Hk' Hj'.
    apply (cell_passes_goes_through raw cell_properties axe0 axe1 elements_on_axe2
             Haxe0 Haxe1 Htitle).
    apply (Hbefore (k', j')), list_elem_of_In, cells_before_row; [done |].
    by rewrite (n_columns_axe0 raw axe0 Haxe0).
  - intros j' Hj'.
    destruct (cell_passes_goes_through raw cell_properties axe0 axe1 elements_on_axe2
                Haxe0 Haxe1 Htitle i j') as (t1' & Ht1' & Hgo).
    + by apply (Hbefore (i, j')), list_elem_of_In, cells_before_column.
    + by simplify_eq.
  - intros st0.
    apply (cell_body_missing_cell raw cell_properties _ axe0 elements_on_axe2
             (unique_names t1) j _ t0 coordinates_sorted st0 Ht0 Hsort).
    intros Hhas. unfold cell_has_properties in Hhas.
    rewrite Forall_forall in Hhas.
    destruct (Hhas _ Hprop) as (cell & Hcell & [v Hv]).
    simpl in Hcell, Hlacks. rewrite Hcell in Hlacks. simpl in Hlacks. congruence.
  - unfold not_cut_before in Hcut. simpl.
    destruct (i * Z.to_nat (Cardinality axe0) + j)%nat; [by left | right].
    by apply negb_true_iff in Hcut.
Qed.

Lemma missing_cell_fails_witness :
  build_content_from_cellset
    (RawCellset (Cube sample_cellset) (Axes sample_cellset)
                (take 4 (Cells sample_cellset)))
    ["Value"] None
  = Raise StructureError.
Proof.
  apply (missing_cell_fails
           (RawCellset (Cube sample_cellset) (Axes sample_cellset)
                       (take 4 (Cells sample_cellset)))
           ["Value"] None 2 0
           ["[Scenario].[Actual]"; "[Business Unit].[Germany]"]
           ["[Business Unit].[Germany]"; "[Scenario].[Actual]"] "Value").
  - reflexivity.
  - reflexivity.
  - by left.
  - reflexivity.
  - vm_compute. reflexivity.
  - reflexivity.
Defined.

(** ** Runs that succeed *)

Section Success.
Context {Val : Type}.
Variable raw : raw_cellset Val.
Variable cell_properties : list string.
Variable top : option Z.
Variable cube_dimensions : list string.
Variable axe0 axe1 : axis.
Variable elements_on_axe2 : list string.

Local Abbreviation one_cell :=
  (cell_body raw cell_properties cube_dimensions axe0 elements_on_axe2).
Local Abbreviation columns :=
  (columns_loop raw cell_properties top cube_dimensions axe0 elements_on_axe2).
Local Abbreviation rows :=
  (rows_loop raw cell_properties top cube_dimensions axe0 axe1 elements_on_axe2).
Local Abbreviation goes_through :=
  (cell_goes_through raw cell_properties cube_dimensions axe0 elements_on_axe2).
Local Abbreviation reads_of first count :=
  (flat_map (λ n, replicate (length cell_properties) n) (seq first count)).

Lemma rows_loop_goes_through (n : nat) :
  let c0 := Z.to_nat (Cardinality axe0) in
  ∀ (i0 : nat) (st : fstate Val),
    (∀ k, (k < n)%nat →
       ∃ t1, Tuples axe1 !! (i0 + k) = Some t1
             ∧ ∀ j, (j < c0)%nat →
                    goes_through (unique_names t1) j ((i0 + k) * c0 + j)) →
    top_reached top ((i0 + n) * c0) = false →
    ∃ st', rows n i0 (i0 * c0) st = (st', Ok tt).
Proof.
  intros c0. induction n as [|n IH]; intros i0 st Hrows Htop; simpl; [by exists st |].
  unfold bind at 1, index.
  destruct (Hrows 0) as (t1 & Ht1 & Hcells); [lia |].
  rewrite Nat.add_0_r in Ht1, Hcells. rewrite Ht1. simpl. unfold bind at 1. fold c0.
  destruct (columns_loop_goes_through raw cell_properties top cube_dimensions axe0
              elements_on_axe2 c0 (unique_names t1) 0 (i0 * c0) st) as [st1 ->].
  - intros j Hj. by apply Hcells.
  - apply (top_reached_mono top _ ((i0 + S n) * c0)); [nia | done].
  - rewrite (top_reached_mono top (i0 * c0 + c0) ((i0 + S n) * c0)) by (nia || done).
    replace (i0 * c0 + c0)%nat with (S i0 * c0)%nat by lia.
    apply IH.
    + intros k Hk. replace (S i0 + k) with (i0 + S k) by lia. apply Hrows. lia.
    + by replace (S i0 + n) with (i0 + S n) by lia.
Qed.

(** On success lines 106-108 read the cell once for each property. *)
Lemma read_properties_reads (coordinates_sorted : list string) (ordinal_cells : nat)
    (props : list string) (st st' : fstate Val) :
  read_properties (Cells raw) coordinates_sorted ordinal_cells props st = (st', Ok tt) →
  cells_read st' = cells_read st ++ replicate (length props) ordinal_cells.
Proof.
  revert st. induction props as [|p props IH]; intros st; simpl.
  - intros [= <-]. by rewrite app_nil_r.
  - intros Hrun. apply bind_inv in Hrun as [(st1 & v & Hread & Hrun)|(e & _ & [=])].
    unfold read_cell in Hread.
    destruct (Cells raw !! ordinal_cells) as [cell|]; [| done].
    destruct (od_getitem p cell); [| done]. injection Hread as <- <-.
    apply bind_inv in Hrun as [(st2 & [] & Hstore & Hrun)|(e & _ & [=])].
    apply store_property_effect in Hstore as (_ & Hreads & _).
    apply IH in Hrun. rewrite Hrun, Hreads. simpl. by rewrite <- app_assoc.
Qed.

Lemma cell_body_reads (elements_on_axe1 : list string) (j ordinal_cells : nat)
    (st st' : fstate Val) :
  one_cell elements_on_axe1 j ordinal_cells st = (st', Ok tt) →
  cells_read st' = cells_read st ++ reads_of ordinal_cells 1.
Proof.
  unfold cell_body. intros Hrun. simpl. rewrite app_nil_r.
  apply bind_inv in Hrun as [(st1 & t0 & Hindex & Hrun)|(e & _ & [=])].
  apply index_inv in Hindex as [-> _].
  apply bind_inv in Hrun as [(st1 & coords & Hsort & Hrun)|(e & _ & [=])].
  unfold lift in Hsort. destruct (sort_addresstuple _ _); [| done].
  injection Hsort as <- <-.
  apply bind_inv in Hrun as [(st2 & [] & Hstore & Hrun)|(e & _ & [=])].
  injection Hstore as <-. by apply read_properties_reads in Hrun.
Qed.

Hypothesis no_limit : top = None.

Lemma columns_loop_reads (n : nat) :
  ∀ (elements_on_axe1 : list string) (j ordinal_cells x : nat) (st st' : fstate Val),
    columns n elements_on_axe1 j ordinal_cells st = (st', Ok x) →
    x = (ordinal_cells + n)%nat
    ∧ cells_read st' = cells_read st ++ reads_of ordinal_cells n.
Proof using no_limit.
  induction n as [|n IH]; intros el1 j oc x st st'; simpl.
  - intros [= <- <-]. split; [lia | by rewrite app_nil_r].
  - intros Hrun. apply bind_inv in Hrun as [(st1 & [] & Hcell & Hrun)|(e & _ & [=])].
    apply cell_body_reads in Hcell.
    replace (top_reached top (S oc)) with false in Hrun by (by rewrite no_limit).
    apply IH in Hrun as [-> Hreads]. split; [lia |].
    rewrite Hreads, Hcell. simpl. by rewrite app_nil_r, <- app_assoc.
Qed.

Lemma rows_loop_reads (n : nat) :
  ∀ (i ordinal_cells : nat) (st st' : fstate Val),
    rows n i ordinal_cells st = (st', Ok tt) →
    cells_read st'
    = cells_read st ++ reads_of ordinal_cells (n * Z.to_nat (Cardinality axe0)).
Proof using no_limit.
  induction n as [|n IH]; intros i oc st st'; simpl.
  - intros [= <-]. by rewrite app_nil_r.
  - intros Hrun. apply bind_inv in Hrun as [(st1 & t1 & Hindex & Hrun)|(e & _ & [=])].
    apply index_inv in Hindex as [-> _].
    apply bind_inv in Hrun as [(st2 & x & Hcols & Hrun)|(e & _ & [=])].
    apply columns_loop_reads in Hcols as [-> Hreads].
    replace (top_reached top _) with false in Hrun by (by rewrite no_limit).
    apply IH in Hrun. rewrite Hrun, Hreads, <- app_assoc. f_equal.
    by rewrite seq_app, flat_map_app.
Qed.
End Success.

(** X18. Without a limit, a run that succeeds has read the cells in the
    order of their numbers, from 0 to rows times columns less one, each
    once for each requested property in turn: cells are consumed row by
    row, the columns of a row from first to last. *)
Theorem cells_are_read_in_order {Val : Type} (raw : raw_cellset Val)
    (cell_properties : list string) (st : fstate Val) :
  build_content_run raw cell_properties None = (st, Ok tt) →
  cells_read st
  = flat_map (λ n, replicate (length cell_properties) n)
             (seq 0 (n_rows raw * n_columns raw)).
Proof.
  unfold build_content_run. intros Hrun.
  apply build_content_body_cases in Hrun
    as [[_ [=]]|(axe0 & axe1 & elements_on_axe2 & Haxe0 & Haxe1 & _ & Hrun)].
  apply (rows_loop_reads raw cell_properties None _ axe0 axe1 elements_on_axe2 eq_refl)
    in Hrun.
  by rewrite (n_rows_axe1 raw axe1 Haxe1), (n_columns_axe0 raw axe0 Haxe0).
Qed.

Lemma cells_are_read_in_order_witness :
  cells_read (build_content_run sample_cellset ["Value"] None).1 = [0; 1; 2; 3; 4; 5]
  ∧ cells_read (build_content_run sample_cellset ["Value"; "Value"] None).1
    = [0; 0; 1; 1; 2; 2; 3; 3; 4; 4; 5; 5].
Proof.
  split.
  - apply (cells_are_read_in_order sample_cellset ["Value"]
             (build_content_run sample_cellset ["Value"] None).1).
    vm_compute. reflexivity.
  - apply (cells_are_read_in_order sample_cellset ["Value"; "Value"]
             (build_content_run sample_cellset ["Value"; "Value"] None).1).
    vm_compute. reflexivity.
Defined.

(** X19. A sufficient condition for success.  With two axes, a readable
    title axis and a row axis that has the tuples its cardinality
    announces, [build_content_from_cellset] returns a mapping when every
    cell of the rows times columns grid goes through lines 100-108 and
    the limit is above the number of cells. *)
Theorem all_cells_pass_succeeds {Val : Type} (raw : raw_cellset Val)
    (cell_properties : list string) (top : option Z) (axe1 : axis) :
  Axes raw !! 1 = Some axe1 →
  is_Some (title_elements raw) →
  (n_rows raw ≤ length (Tuples axe1))%nat →
  forallb (λ c, cell_passes raw cell_properties c.1 c.2)
          (cells_before raw (n_rows raw) 0) = true →
  top_reached top (n_rows raw * n_columns raw) = false →
  ∃ content, build_content_from_cellset raw cell_properties top = Ok content.
Proof.
  intros Haxe1 [elements_on_axe2 Htitle] Htuples Hpass Htop.
  destruct (Axes raw !! 0) as [axe0|] eqn:Haxe0.
  2: { apply lookup_ge_None in Haxe0. apply lookup_lt_Some in Haxe1. lia. }
  assert (∃ st, build_content_run raw cell_properties top = (st, Ok tt)) as [st Hrun];
    [| exists (content_as_dict st); unfold build_content_from_cellset; by rewrite Hrun].
  rewrite (n_rows_axe1 raw axe1 Haxe1) in Htuples, Htop.
  rewrite (n_columns_axe0 raw axe0 Haxe0) in Htop.
  rewrite forallb_forall in Hpass.
  unfold build_content_run.
  rewrite (build_content_body_rows_loop raw cell_properties axe0 axe1 elements_on_axe2
             Haxe0 Haxe1 Htitle).
  apply (rows_loop_goes_through raw cell_properties top _ axe0 axe1 elements_on_axe2
           _ 0); [| done].
  intros k Hk. simpl.
  destruct (lookup_lt_is_Some_2 (Tuples axe1) k) as [t1 Ht1]; [lia |].
  exists t1. split; [done |]. intros j Hj.
  destruct (cell_passes_goes_through raw cell_properties axe0 axe1 elements_on_axe2
              Haxe0 Haxe1 Htitle k j) as (t1' & Ht1' & Hgo).
  - apply (Hpass (k, j)), list_elem_of_In, cells_before_row.
    + by rewrite (n_rows_axe1 raw axe1 Haxe1).
    + by rewrite (n_columns_axe0 raw axe0 Haxe0).
  - by simplify_eq.
Qed.

Lemma all_cells_pass_succeeds_witness :
  ∃ content, build_content_from_cellset sample_cellset ["Value"] (Some 7%Z) = Ok content.
Proof.
  apply (all_cells_pass_succeeds sample_cellset ["Value"] (Some 7%Z) sample_rows).
  - reflexivity.
  - by exists [].
  - vm_compute. lia.
  - vm_compute. reflexivity.
  - reflexivity.
Defined.

(** ** Searching and slicing *)

Lemma prefix_cons (a b : ascii) (p s : string) :
  String.prefix (String a p) (String b s)
  = if ascii_dec a b then String.prefix p s else false.
Proof. reflexivity. Qed.

Lemma prefix_cons_ne (a b : ascii) (p s : string) :
  a ≠ b → String.prefix (String a p) (String b s) = false.
Proof. intros Hne. rewrite prefix_cons. by destruct (ascii_dec a b). Qed.

Lemma prefix_nil_r (a : ascii) (p : string) : String.prefix (String a p) "" = false.
Proof. reflexivity. Qed.

Lemma prefix_app (p r : string) : String.prefix p (p +:+ r) = true.
Proof. apply (startswith_spec (p +:+ r) p). by exists r. Qed.

Lemma append_cons (x : ascii) (a b : string) : String x a +:+ b = String x (a +:+ b).
Proof. reflexivity. Qed.

Lemma append_nil_l (b : string) : "" +:+ b = b.
Proof. reflexivity. Qed.

Lemma append_assoc (a b c : string) : (a +:+ b) +:+ c = a +:+ (b +:+ c).
Proof.
  induction a as [|x a IH]; [done |]. rewrite !append_cons. by f_equal.
Qed.

Lemma length_append (a b : string) :
  String.length (a +:+ b) = (String.length a + String.length b)%nat.
Proof. induction a as [|x a IH]; simpl; [done | by f_equal]. Qed.

Lemma drop_string_app (a b : string) : drop_string (String.length a) (a +:+ b) = b.
Proof. induction a as [|x a IH]; simpl; [by destruct b | done]. Qed.

Lemma substring_0_app (b c : string) : substring 0 (String.length b) (b +:+ c) = b.
Proof.
  induction b as [|y b IH]; [by destruct c |].
  rewrite append_cons. simpl. by rewrite IH.
Qed.

Lemma substring_app (a b c : string) :
  substring (String.length a) (String.length b) (a +:+ b +:+ c) = b.
Proof.
  induction a as [|x a IH]; [exact (substring_0_app b c) |].
  rewrite append_cons. simpl. apply IH.
Qed.

Lemma has_char_false_ne (c c' : ascii) (s : string) :
  has_char c (String c' s) = false → c ≠ c' ∧ has_char c s = false.
Proof.
  simpl. intros [Hc Hs]%orb_false_iff. split; [| done].
  intros ->. by rewrite Ascii.eqb_refl in Hc.
Qed.

(** A search finds nothing before it starts. *)
Lemma find_from_ge (sub s : string) (i j : nat) :
  find_from sub s i = Some j → (i ≤ j)%nat.
Proof.
  revert i. induction s as [|c s IH]; intros i; cbn [find_from].
  - destruct (String.prefix sub ""); intros; simplify_eq; lia.
  - destruct (String.prefix sub (String c s)); [intros; simplify_eq; lia |].
    intros Hj%IH. lia.
Qed.

Lemma find_from_here (sub s : string) (i : nat) :
  String.prefix sub s = true → find_from sub s i = Some i.
Proof. intros Hp. destruct s; cbn [find_from]; by rewrite Hp. Qed.

(** Text without the first character of the pattern is passed over. *)
Lemma find_from_skip (x : ascii) (sub' name u : string) (i : nat) :
  has_char x name = false →
  find_from (String x sub') (name +:+ u) i
  = find_from (String x sub') u (i + String.length name).
Proof.
  revert i. induction name as [|c name IH]; intros i Hno.
  - rewrite append_nil_l. simpl. by rewrite Nat.add_0_r.
  - apply has_char_false_ne in Hno as [Hne Hno].
    rewrite append_cons. cbn [find_from].
    rewrite prefix_cons_ne by done. rewrite IH by done. f_equal. simpl. lia.
Qed.

Lemma find_from_None (sub s : string) (i : nat) :
  find_from sub s i = None ↔ contains sub s = false.
Proof.
  revert i. induction s as [|c s IH]; intros i; cbn [find_from contains].
  - destruct (String.prefix sub ""); simpl; split; done.
  - destruct (String.prefix sub (String c s)); simpl; [split; done | apply IH].
Qed.

Lemma rfind_from_None (sub s : string) (i : nat) :
  rfind_from sub s i = None ↔ contains sub s = false.
Proof.
  revert i. induction s as [|c s IH]; intros i; cbn [rfind_from contains].
  - destruct (String.prefix sub ""); simpl; split; done.
  - specialize (IH (S i)).
    destruct (rfind_from sub s (S i)) as [j|].
    + destruct (contains sub s); [| by destruct IH as [_ IH]; specialize (IH eq_refl)].
      rewrite orb_true_r. split; done.
    + destruct IH as [IH _]. rewrite (IH eq_refl), orb_false_r.
      destruct (String.prefix sub (String c s)); split; done.
Qed.

Lemma rfind_from_ge (sub s : string) (i j : nat) :
  rfind_from sub s i = Some j → (i ≤ j)%nat.
Proof.
  revert i. induction s as [|c s IH]; intros i; cbn [rfind_from].
  - destruct (String.prefix sub ""); intros; simplify_eq; lia.
  - destruct (rfind_from sub s (S i)) as [j'|] eqn:Hr.
    + intros; simplify_eq. apply IH in Hr. lia.
    + destruct (String.prefix sub (String c s)); intros; simplify_eq; lia.
Qed.

(** The last occurrence is here when the pattern opens the text and does
    not occur further on. *)
Lemma rfind_from_here (sub : string) (c : ascii) (s : string) (i : nat) :
  String.prefix sub (String c s) = true → contains sub s = false →
  rfind_from sub (String c s) i = Some i.
Proof.
  intros Hp Hno. cbn [rfind_from].
  apply (rfind_from_None sub s (S i)) in Hno as ->. by rewrite Hp.
Qed.

(** What is found in the rest of the text is found in the text. *)
Lemma rfind_from_app_r (sub pre u : string) (i j : nat) :
  rfind_from sub u (i + String.length pre) = Some j →
  rfind_from sub (pre +:+ u) i = Some j.
Proof.
  revert i. induction pre as [|c pre IH]; intros i.
  - rewrite append_nil_l. simpl. by rewrite Nat.add_0_r.
  - intros Hu. rewrite append_cons. cbn [rfind_from]. rewrite (IH (S i)); [done |].
    simpl in Hu.
    by replace (S i + String.length pre)%nat with (i + S (String.length pre))%nat by lia.
Qed.

(** Text without the first character of the pattern holds no occurrence
    that starts in it. *)
Lemma contains_skip (x : ascii) (sub' name u : string) :
  has_char x name = false →
  contains (String x sub') (name +:+ u) = contains (String x sub') u.
Proof.
  induction name as [|c name IH]; intros Hno; [done |].
  apply has_char_false_ne in Hno as [Hne Hno].
  rewrite append_cons. cbn [contains].
  rewrite prefix_cons_ne by done. simpl. by apply IH.
Qed.

(** An occurrence of ["FROM["] cannot start in text without an opening
    bracket that a closing bracket follows. *)
Lemma prefix_from_no_bracket (a u : string) :
  has_char "[" a = false → String.prefix "FROM[" (a +:+ String "]" u) = false.
Proof.
  intros Hno.
  do 5 (destruct a as [|? a]; [reflexivity |];
        apply has_char_false_ne in Hno as [? Hno];
        rewrite append_cons, prefix_cons;
        destruct (ascii_dec _ _) as [<-|]; [| done]).
  done.
Qed.

Lemma contains_from_no_bracket (name u : string) :
  has_char "[" name = false →
  contains "FROM[" (name +:+ String "]" u) = contains "FROM[" (String "]" u).
Proof.
  induction name as [|c name IH]; intros Hno; [done |].
  pose proof (prefix_from_no_bracket (String c name) u Hno) as Hp.
  apply has_char_false_ne in Hno as [_ Hno].
  rewrite append_cons in *. cbn [contains]. rewrite Hp. simpl. by apply IH.
Qed.

Lemma slice_middle (a b c : string) :
  slice (a +:+ b +:+ c)
        (Z.of_nat (String.length a))
        (Z.of_nat (String.length a + String.length b))
  = b.
Proof.
  unfold slice, slice_bound. rewrite !length_append.
  destruct (Z.of_nat (String.length a) <? 0)%Z eqn:H1; [apply Z.ltb_lt in H1; lia |].
  destruct (Z.of_nat (String.length a + String.length b) <? 0)%Z eqn:H2;
    [apply Z.ltb_lt in H2; lia |].
  rewrite !Z.min_l by lia.
  replace (Z.to_nat (Z.of_nat (String.length a))) with (String.length a) by lia.
  replace (Z.to_nat (Z.of_nat (String.length a + String.length b)
                     - Z.of_nat (String.length a)))
    with (String.length b) by lia.
  apply substring_app.
Qed.

(** A slice up to -1 leaves out the last character. *)
Lemma slice_to_minus_one (a b : string) (x : ascii) :
  slice (a +:+ b +:+ String x "") (Z.of_nat (String.length a)) (-1) = b.
Proof.
  unfold slice, slice_bound. rewrite !length_append. simpl String.length.
  destruct (Z.of_nat (String.length a) <? 0)%Z eqn:H1; [apply Z.ltb_lt in H1; lia |].
  change (-1 <? 0)%Z with true. cbv iota.
  rewrite Z.min_l, Z.max_l by lia.
  replace (Z.to_nat (Z.of_nat (String.length a))) with (String.length a) by lia.
  replace (Z.to_nat (-1 + Z.of_nat (String.length a + (String.length b + 1))
                     - Z.of_nat (String.length a)))
    with (String.length b) by lia.
  apply substring_app.
Qed.

Lemma str_find_after (a name sub' u : string) (x : ascii) :
  has_char x name = false →
  str_find (a +:+ name +:+ u) (String x sub') (Z.of_nat (String.length a))
  = index_or_minus_one
      (find_from (String x sub') u (String.length a + String.length name)).
Proof.
  intros Hno. unfold str_find. rewrite length_append.
  destruct (_ <? _)%Z eqn:Hlt; [apply Z.ltb_lt in Hlt; lia |].
  replace (Z.to_nat (Z.of_nat (String.length a))) with (String.length a) by lia.
  by rewrite drop_string_app, find_from_skip.
Qed.

(** ** [read_cube_name_from_mdx] *)

Lemma str_rfind_from (pre name tail : string) :
  has_char "[" name = false →
  contains "FROM[" (String "]" tail) = false →
  str_rfind (pre +:+ "FROM[" +:+ name +:+ String "]" tail) "FROM["
  = Z.of_nat (String.length pre).
Proof.
  intros Hname Htail. unfold str_rfind.
  rewrite (rfind_from_app_r "FROM[" pre _ 0 (String.length pre)); [done |].
  rewrite !append_cons, append_nil_l.
  apply rfind_from_here; [exact (prefix_app "FROM[" (name +:+ String "]" tail)) |].
  cbn [contains]. rewrite !prefix_cons_ne by done. simpl.
  by rewrite contains_from_no_bracket.
Qed.

(** X20. The test of line 43 never holds.  [find] is asked to search
    from position 4 at least, so it answers -1 or a position from there
    on, never 0: the replacement of line 44 is dead code, and the cube
    name is always the slice from [post_start] to what [find] answered;
    when ["]WHERE"] is not found this is the slice up to -1, which
    leaves out the last character of the text. *)
Theorem line_43_never_holds (mdx : string) :
  (4 ≤ post_start mdx)%Z
  ∧ pos_end_found mdx ≠ 0%Z
  ∧ (pos_end_found mdx = (-1)%Z ∨ (post_start mdx ≤ pos_end_found mdx)%Z)
  ∧ read_cube_name_from_mdx mdx
    = slice (mdx_trimed mdx) (post_start mdx) (pos_end_found mdx).
Proof.
  assert (4 ≤ post_start mdx)%Z as Hstart.
  { unfold post_start, str_rfind. simpl String.length.
    destruct (rfind_from _ _ _); simpl; lia. }
  assert (pos_end_found mdx = (-1)%Z ∨ (post_start mdx ≤ pos_end_found mdx)%Z) as Hend.
  { unfold pos_end_found, str_find.
    destruct (_ <? _)%Z; [by left |].
    destruct (find_from _ _ _) as [j|] eqn:Hfind; [| by left].
    right. apply find_from_ge in Hfind. simpl. lia. }
  assert (pos_end_found mdx ≠ 0%Z) as Hne by lia.
  repeat split; try done.
  unfold read_cube_name_from_mdx.
  destruct (pos_end_found mdx =? 0)%Z eqn:Hz; [| done].
  apply Z.eqb_eq in Hz. lia.
Qed.

(** X21. For a query with a WHERE clause the cube name is what stands
    between the last ["FROM["] and ["]WHERE"].  When the text of the
    query, white space removed and in upper case, is
    [pre FROM[ name ]WHERE post], where [name] holds no bracket and
    [post] no ["FROM["], the function returns [name]. *)
Theorem cube_name_before_where (mdx pre name post : string) :
  mdx_trimed mdx = pre +:+ "FROM[" +:+ name +:+ "]WHERE" +:+ post →
  has_char "[" name = false →
  has_char "]" name = false →
  contains "FROM[" post = false →
  read_cube_name_from_mdx mdx = name.
Proof.
  intros Htrim Hopen Hclose Hpost.
  assert (post_start mdx = Z.of_nat (String.length (pre +:+ "FROM["))) as Hstart.
  { unfold post_start. rewrite Htrim.
    change ("]WHERE" +:+ post) with (String "]" ("WHERE" +:+ post)).
    rewrite str_rfind_from; [rewrite length_append; simpl; lia | done |].
    rewrite !append_cons, append_nil_l. cbn [contains].
    rewrite !prefix_cons_ne by done. by simpl. }
  assert (mdx_trimed mdx = (pre +:+ "FROM[") +:+ name +:+ "]WHERE" +:+ post) as Htrim'.
  { by rewrite Htrim, append_assoc. }
  assert (pos_end_found mdx
          = Z.of_nat (String.length (pre +:+ "FROM[") + String.length name)) as Hend.
  { unfold pos_end_found. rewrite Hstart, Htrim'.
    rewrite str_find_after by done.
    by rewrite (find_from_here "]WHERE" ("]WHERE" +:+ post)) by apply prefix_app. }
  unfold read_cube_name_from_mdx. rewrite Hend, Hstart, Htrim'.
  destruct (_ =? 0)%Z eqn:Hz.
  { apply Z.eqb_eq in Hz. rewrite length_append in Hz. simpl in Hz. lia. }
  apply slice_middle.
Qed.

Lemma cube_name_before_where_witness :
  read_cube_name_from_mdx
    "SELECT {[Year].[2017]} ON 0 FROM [Sales Cube] WHERE ([Scenario].[Actual])"
  = "SALESCUBE".
Proof.
  apply (cube_name_before_where _ "SELECT{[YEAR].[2017]}ON0" "SALESCUBE"
           "([SCENARIO].[ACTUAL])"); reflexivity.
Defined.

(** X22. For a query without a WHERE clause the slice up to -1 drops the
    bracket that closes the cube name.  When the text of the query, white
    space removed and in upper case, is [pre FROM[ name ]], where [name]
    holds no bracket, the function returns [name]. *)
Theorem cube_name_without_where (mdx pre name : string) :
  mdx_trimed mdx = pre +:+ "FROM[" +:+ name +:+ "]" →
  has_char "[" name = false →
  has_char "]" name = false →
  read_cube_name_from_mdx mdx = name.
Proof.
  intros Htrim Hopen Hclose.
  assert (post_start mdx = Z.of_nat (String.length (pre +:+ "FROM["))) as Hstart.
  { unfold post_start. rewrite Htrim.
    rewrite str_rfind_from; [rewrite length_append; simpl; lia | done | done]. }
  assert (mdx_trimed mdx = (pre +:+ "FROM[") +:+ name +:+ "]") as Htrim'.
  { by rewrite Htrim, append_assoc. }
  assert (pos_end_found mdx = (-1)%Z) as Hend.
  { unfold pos_end_found. rewrite Hstart, Htrim'.
    by rewrite str_find_after by done. }
  unfold read_cube_name_from_mdx. rewrite Hend, Hstart, Htrim'.
  change (-1 =? 0)%Z with false. cbv iota.
  apply slice_to_minus_one.
Qed.

Lemma cube_name_without_where_witness :
  read_cube_name_from_mdx "SELECT {[Year].[2017]} ON 0 FROM [Sales Cube]"
  = "SALESCUBE".
Proof.
  apply (cube_name_without_where _ "SELECT{[YEAR].[2017]}ON0" "SALESCUBE"); reflexivity.
Defined.

Lemma has_char_true (c c' : ascii) (s : string) :
  has_char c (String c' s) = true ↔ c = c' ∨ has_char c s = true.
Proof.
  simpl. rewrite orb_true_iff. split; intros [H|H]; auto.
  - left. by apply Ascii.eqb_eq.
  - left. by apply Ascii.eqb_eq.
Qed.

Lemma has_char_substring (c : ascii) (n m : nat) (s : string) :
  has_char c (substring n m s) = true → has_char c s = true.
Proof.
  revert n m. induction s as [|x s IH]; intros n m.
  - by destruct n, m.
  - destruct n as [|n].
    + destruct m as [|m]; [done |]. cbn [substring].
      rewrite !has_char_true. intros [?|H]; [by left | right; by apply (IH 0 m)].
    + cbn [substring]. intros H. apply has_char_true. right. by apply (IH n m).
Qed.

Lemma upper_char_fixed (c : ascii) :
  upper_char (upper_char c) = upper_char c
  ∧ (is_whitespace c = false → is_whitespace (upper_char c) = false).
Proof. destruct c as [[] [] [] [] [] [] [] []]; by vm_compute. Qed.

Lemma has_char_upper (c : ascii) (s : string) :
  has_char c (upper s) = true → ∃ c', c = upper_char c' ∧ has_char c' s = true.
Proof.
  induction s as [|x s IH]; [done |]. cbn [upper].
  rewrite has_char_true. intros [->|H].
  - exists x. split; [done |]. apply has_char_true. by left.
  - destruct (IH H) as (c' & -> & Hc'). exists c'. split; [done |].
    apply has_char_true. by right.
Qed.

Lemma has_char_remove_whitespace (c : ascii) (s : string) :
  has_char c (remove_whitespace s) = true → is_whitespace c = false.
Proof.
  induction s as [|x s IH]; [done |]. cbn [remove_whitespace].
  destruct (is_whitespace x) eqn:Hx; [done |].
  rewrite has_char_true. by intros [->|H]; [| apply IH].
Qed.

(** X23. The cube name comes back in upper case and without white
    space, whatever the query: every character of the result is a
    character left by [upper()] and none is one that [split()] cuts at.
    The name of cube [Sales Cube] is returned as [SALESCUBE]. *)
Theorem cube_name_is_upper_without_spaces (mdx : string) (c : ascii) :
  has_char c (read_cube_name_from_mdx mdx) = true →
  upper_char c = c ∧ is_whitespace c = false.
Proof.
  unfold read_cube_name_from_mdx, slice. intros Hc%has_char_substring.
  unfold mdx_trimed in Hc. apply has_char_upper in Hc as (c' & -> & Hc').
  apply has_char_remove_whitespace in Hc'.
  split; by apply upper_char_fixed.
Qed.

Lemma cube_name_is_upper_without_spaces_witness :
  upper_char "S" = "S"%char ∧ is_whitespace "S" = false.
Proof.
  apply (cube_name_is_upper_without_spaces
           "select {[Year].[2017]} on 0 from [Sales Cube]" "S").
  reflexivity.
Defined.

(** ** The names handed to pandas *)

(** X24. The element name of a unique name is what stands between the
    last ["].["] and the closing bracket: for every unique name
    [pre ].[ element ]] whose [element] holds no closing bracket, line 124
    gives [element], whatever dimension and hierarchy [pre] spells. *)
Theorem element_name_of_unique_name (pre element : string) :
  has_char "]" element = false →
  element_name (pre +:+ "].[" +:+ element +:+ "]") = element.
Proof.
  intros Hno. unfold element_name.
  assert (str_rfind (pre +:+ "].[" +:+ element +:+ "]") "].["
          = Z.of_nat (String.length pre)) as ->.
  { unfold str_rfind.
    rewrite (rfind_from_app_r "].[" pre _ 0 (String.length pre)); [done |].
    rewrite !append_cons, append_nil_l.
    apply rfind_from_here; [exact (prefix_app "].[" (element +:+ "]")) |].
    cbn [contains]. rewrite !prefix_cons_ne by done. simpl.
    by rewrite contains_skip. }
  replace (Z.of_nat (String.length pre) + 3)%Z
    with (Z.of_nat (String.length (pre +:+ "].["))) by (rewrite length_append; simpl; lia).
  rewrite <- append_assoc. apply slice_to_minus_one.
Qed.

Lemma element_name_of_unique_name_witness :
  element_name "[Business Unit].[Region].[UK]" = "UK".
Proof.
  apply (element_name_of_unique_name "[Business Unit].[Region" "UK"). reflexivity.
Defined.

(** X25. The dimension name of a unique name is what stands between the
    opening bracket and the first ["].["]: for every unique name
    [[ dimension ].[ rest] whose [dimension] holds no closing bracket,
    line 127 gives [dimension]. *)
Theorem dimension_name_of_unique_name (dimension rest : string) :
  has_char "]" dimension = false →
  dimension_name ("[" +:+ dimension +:+ "].[" +:+ rest) = dimension.
Proof.
  intros Hno. unfold dimension_name.
  assert (str_find ("[" +:+ dimension +:+ "].[" +:+ rest) "].[" 0
          = Z.of_nat (String.length "[" + String.length dimension)) as ->.
  { assert (has_char "]" ("[" +:+ dimension) = false) as Hno'.
    { rewrite append_cons. apply orb_false_iff. by split. }
    etrans; [exact (str_find_after "" ("[" +:+ dimension) ".[" ("].[" +:+ rest) "]" Hno') |].
    rewrite (find_from_here "].[" ("].[" +:+ rest)) by apply prefix_app.
    simpl. by rewrite length_append. }
  apply (slice_middle "[" dimension ("].[" +:+ rest)).
Qed.

Lemma dimension_name_of_unique_name_witness :
  dimension_name "[Business Unit].[Region].[UK]" = "Business Unit".
Proof.
  apply (dimension_name_of_unique_name "Business Unit" "Region].[UK]"). reflexivity.
Defined.

(** ** The loop before the calls into pandas *)

Section DataFrameFacts.
Context {Val : Type}.
Implicit Types (cellset : store (list string) (list string) (properties Val)).
Implicit Types (cellset_clean : odict (list string) Val).

Lemma clean_loop_error cellset (keys : list (list string)) cellset_clean
    (coordinates : option (list string)) (e : frame_exn) :
  clean_loop cellset keys cellset_clean coordinates = inl e → e = KeyError.
Proof.
  revert cellset_clean coordinates.
  induction keys as [|key keys IH]; intros acc coords; simpl; [done |].
  destruct (getitem adjust_tuple cellset key) as [cell|]; [| by intros [= <-]].
  destruct (od_getitem "Value" cell); [apply IH | by intros [= <-]].
Qed.

Lemma clean_loop_bound cellset (keys : list (list string)) cellset_clean
    cellset_clean' (coordinates : option (list string)) :
  clean_loop cellset keys cellset_clean coordinates = inr (cellset_clean', None) →
  keys = [] ∧ coordinates = None.
Proof.
  assert (∀ keys acc k acc',
            clean_loop cellset keys acc (Some k) ≠ inr (acc', None)) as Hsome.
  { clear. intros keys. induction keys as [|key keys IH]; intros acc k acc'; simpl;
      [done |].
    destruct (getitem adjust_tuple cellset key) as [cell|]; [| done].
    destruct (od_getitem "Value" cell); [apply IH | done]. }
  destruct keys as [|key keys]; simpl.
  - by intros [= _ ->].
  - destruct (getitem adjust_tuple cellset key) as [cell|]; [| done].
    destruct (od_getitem "Value" cell); [| done].
    intros Hloop. by apply Hsome in Hloop.
Qed.

(** X26. An empty cellset cannot be turned into a data frame: line 127
    reads the variable of a loop that has not run.  The function fails
    with [UnboundLocalError] on the empty mapping, and on no other. *)
Theorem empty_cellset_is_unbound cellset :
  build_pandas_dataframe_arguments cellset = inl UnboundLocalError ↔ cellset = [].
Proof.
  split; [| by intros ->].
  unfold build_pandas_dataframe_arguments.
  destruct (clean_loop cellset (iter cellset) [] None) as [e|[acc [k|]]] eqn:Hloop.
  - apply clean_loop_error in Hloop as ->. done.
  - done.
  - intros _. apply clean_loop_bound in Hloop as [Hiter _].
    by destruct cellset.
Qed.

(** On a store that satisfies the class invariant the loop finds every
    entry under its own key.  When each cell has a [Value] and the
    cleaned keys are new and pairwise distinct, the loop appends one
    pair for each entry. *)
Lemma clean_loop_appends (pre suf : store (list string) (list string) (properties Val))
    (vs : list Val) cellset_clean (coordinates : option (list string)) :
  wf adjust_tuple (pre ++ suf) →
  Forall2 (λ e v, od_getitem "Value" e.2.2 = Some v) suf vs →
  NoDup (od_keys cellset_clean ++ map (map element_name) (iter suf)) →
  clean_loop (pre ++ suf) (iter suf) cellset_clean coordinates
  = inr (cellset_clean ++ zip (map (map element_name) (iter suf)) vs,
         match last (iter suf) with Some key => Some key | None => coordinates end).
Proof.
  revert pre vs cellset_clean coordinates.
  induction suf as [|[nk [key cell]] suf IH]; intros pre vs acc coords Hwf Hvs Hnd.
  - apply Forall2_nil_inv_l in Hvs as ->. simpl. by rewrite app_nil_r.
  - apply Forall2_cons_inv_l in Hvs as (v & vs' & Hv & Hvs & ->). simpl in Hv.
    pose proof Hwf as [Hkeys Hall].
    apply Forall_app in Hall as [_ [Hk _]%Forall_cons]. simpl in Hk. subst nk.
    rewrite od_keys_app in Hkeys. simpl in Hkeys.
    apply NoDup_app in Hkeys as (_ & Hdisj & _).
    assert (adjust_tuple key ∉ od_keys pre) as Hnin.
    { intros Hin. apply (Hdisj _ Hin). by left. }
    cbn [iter od_values map fst snd clean_loop].
    unfold getitem. rewrite od_getitem_app.
    apply od_getitem_None in Hnin as ->. simpl.
    rewrite decide_True by done. rewrite Hv.
    simpl in Hnd. apply NoDup_app in Hnd as (Hacc & Hdisj' & [Hnew Hrest]%NoDup_cons).
    assert (map element_name key ∉ od_keys acc) as Hfresh.
    { intros Hin. apply (Hdisj' _ Hin). by left. }
    rewrite od_setitem_absent by done.
    replace (pre ++ (adjust_tuple key, (key, cell)) :: suf)
      with ((pre ++ [(adjust_tuple key, (key, cell))]) ++ suf) in *
      by (by rewrite <- app_assoc).
    rewrite (IH _ vs' _ (Some key) Hwf Hvs).
    + rewrite <- app_assoc. simpl. f_equal. f_equal.
      change (map fst (map snd suf)) with (iter suf). rewrite last_cons.
      by destruct (last (iter suf)).
    + rewrite od_keys_app. simpl. rewrite <- app_assoc. simpl.
      apply NoDup_app. split; [done |]. split; [| by apply NoDup_cons].
      intros x Hx [->|Hx']%elem_of_cons; [done |].
      apply (Hdisj' x Hx). by right.
Qed.

Lemma od_keys_zip {A B : Type} (l : list A) (k : list B) :
  length l = length k → od_keys (zip l k) = l ∧ od_values (zip l k) = k.
Proof.
  revert k. induction l as [|a l IH]; intros [|b k]; simpl; try done.
  intros [= Hlen]. destruct (IH k Hlen) as [Hkeys Hvalues].
  unfold od_keys, od_values in *. by rewrite Hkeys, Hvalues.
Qed.

(** X27. What pandas is given.  For a cellset that satisfies the class
    invariant, whose cells all have a [Value] and whose coordinates clean
    to pairwise distinct tuples of element names, the index keys are the
    cleaned coordinates in the order of the cellset, the values are the
    [Value]s in the same order, and the names of the index levels are
    the dimension names of the last coordinates. *)
Theorem dataframe_arguments_of_cellset cellset (vs : list Val)
    (last_coordinates : list string) :
  wf adjust_tuple cellset →
  Forall2 (λ e v, od_getitem "Value" e.2.2 = Some v) cellset vs →
  NoDup (map (map element_name) (iter cellset)) →
  last (iter cellset) = Some last_coordinates →
  build_pandas_dataframe_arguments cellset
  = inr (FrameArguments (map (map element_name) (iter cellset))
                        (map dimension_name last_coordinates)
                        vs).
Proof.
  intros Hwf Hvs Hnd Hlast. unfold build_pandas_dataframe_arguments.
  pose proof (clean_loop_appends [] cellset vs [] None Hwf Hvs Hnd) as Hloop.
  change ([] ++ cellset) with cellset in Hloop. rewrite Hloop, Hlast. simpl.
  destruct (od_keys_zip (map (map element_name) (iter cellset)) vs) as [-> ->];
    [| done].
  rewrite length_map. unfold iter, od_values. rewrite !length_map.
  by apply Forall2_length in Hvs.
Qed.

Lemma clean_loop_missing_value
    (pre suf : store (list string) (list string) (properties Val))
    cellset_clean (coordinates : option (list string)) :
  wf adjust_tuple (pre ++ suf) →
  Exists (λ e, od_getitem "Value" e.2.2 = None) suf →
  clean_loop (pre ++ suf) (iter suf) cellset_clean coordinates = inl KeyError.
Proof.
  revert pre cellset_clean coordinates.
  induction suf as [|[nk [key cell]] suf IH]; intros pre acc coords Hwf Hex.
  - by apply Exists_nil in Hex.
  - pose proof Hwf as [Hkeys Hall].
    apply Forall_app in Hall as [_ [Hk _]%Forall_cons]. simpl in Hk. subst nk.
    rewrite od_keys_app in Hkeys. simpl in Hkeys.
    apply NoDup_app in Hkeys as (_ & Hdisj & _).
    assert (adjust_tuple key ∉ od_keys pre) as Hnin.
    { intros Hin. apply (Hdisj _ Hin). by left. }
    cbn [iter od_values map fst snd clean_loop].
    unfold getitem. rewrite od_getitem_app.
    apply od_getitem_None in Hnin as ->. simpl.
    rewrite decide_True by done.
    destruct (od_getitem "Value" cell) as [v|] eqn:Hv; [| done].
    apply Exists_cons in Hex as [Hhere|Hex]; [simpl in Hhere; congruence |].
    replace (pre ++ (adjust_tuple key, (key, cell)) :: suf)
      with ((pre ++ [(adjust_tuple key, (key, cell))]) ++ suf) in *
      by (by rewrite <- app_assoc).
    by apply IH.
Qed.

(** X28. A cell without a [Value] makes the conversion fail with
    [KeyError]: for a cellset that satisfies the class invariant and has
    an entry whose properties lack [Value]. *)
Theorem dataframe_needs_value cellset :
  wf adjust_tuple cellset →
  Exists (λ e, od_getitem "Value" e.2.2 = None) cellset →
  build_pandas_dataframe_arguments cellset = inl KeyError.
Proof.
  intros Hwf Hex. unfold build_pandas_dataframe_arguments.
  pose proof (clean_loop_missing_value [] cellset [] None Hwf Hex) as Hloop.
  change ([] ++ cellset) with cellset in Hloop. by rewrite Hloop.
Qed.
End DataFrameFacts.

Lemma dataframe_arguments_of_cellset_witness :
  build_pandas_dataframe_arguments
    [(["[businessunit].[uk]"; "[scenario].[actual]"],
      (["[Business Unit].[UK]"; "[Scenario].[Actual]"], [("Value", 10%Z)]));
     (["[businessunit].[uk]"; "[scenario].[budget]"],
      (["[Business Unit].[UK]"; "[Scenario].[Budget]"], [("Value", 20%Z)]))]
  = inr (FrameArguments
           (map (map element_name)
                [["[Business Unit].[UK]"; "[Scenario].[Actual]"];
                 ["[Business Unit].[UK]"; "[Scenario].[Budget]"]])
           (map dimension_name ["[Business Unit].[UK]"; "[Scenario].[Budget]"])
           [10%Z; 20%Z]).
Proof.
  apply (dataframe_arguments_of_cellset
           [(["[businessunit].[uk]"; "[scenario].[actual]"],
             (["[Business Unit].[UK]"; "[Scenario].[Actual]"], [("Value", 10%Z)]));
            (["[businessunit].[uk]"; "[scenario].[budget]"],
             (["[Business Unit].[UK]"; "[Scenario].[Budget]"], [("Value", 20%Z)]))]
           [10%Z; 20%Z] ["[Business Unit].[UK]"; "[Scenario].[Budget]"]).
  - change (wf adjust_tuple
              (update adjust_tuple []
                 [(["[Business Unit].[UK]"; "[Scenario].[Actual]"], [("Value", 10%Z)]);
                  (["[Business Unit].[UK]"; "[Scenario].[Budget]"], [("Value", 20%Z)])])).
    apply wf_update, wf_init_nil.
  - by repeat constructor.
  - apply (bool_decide_unpack _). by vm_compute.
  - reflexivity.
Defined.

Lemma dataframe_needs_value_witness :
  build_pandas_dataframe_arguments
    [(["[businessunit].[uk]"], (["[Business Unit].[UK]"], [("Ordinal", 0%Z)]))]
  = inl KeyError.
Proof.
  apply (dataframe_needs_value
           [(["[businessunit].[uk]"], (["[Business Unit].[UK]"], [("Ordinal", 0%Z)]))]).
  - change (wf adjust_tuple
              (update adjust_tuple [] [(["[Business Unit].[UK]"], [("Ordinal", 0%Z)])])).
    apply wf_update, wf_init_nil.
  - by left.
Defined.

(** When two coordinates clean to the same element names, the later
    value replaces the earlier one under one index key. *)
Example dataframe_collapses_equal_element_names :
  build_pandas_dataframe_arguments
    [(["[region].[uk]"], (["[Region].[UK]"], [("Value", 1%Z)]));
     (["[country].[uk]"], (["[Country].[UK]"], [("Value", 2%Z)]))]
  = inr (FrameArguments [["UK"]] ["Country"] [2%Z]).
Proof. vm_compute. reflexivity. Qed.

(** ** From the flattener to the data frame *)

Lemma od_getitem_Some_elem_of {A B : Type} `{EqDecision A} (k : A) (b : B)
    (d : odict A B) :
  od_getitem k d = Some b → (k, b) ∈ d.
Proof.
  induction d as [|[k' b'] d IH]; simpl; [done |].
  destruct (decide (k = k')) as [->|Hne].
  - intros [= ->]. by left.
  - intros H. right. by apply IH.
Qed.

Lemma od_keys_setitem_elem_of {A B : Type} `{EqDecision A} (k x : A) (b : B)
    (d : odict A B) :
  x ∈ od_keys (od_setitem k b d) → x = k ∨ x ∈ od_keys d.
Proof.
  destruct (decide (k ∈ od_keys d)) as [Hin|Hnin].
  - rewrite od_keys_setitem_present by done. by right.
  - rewrite od_keys_setitem_absent by done.
    intros [?|Hx%list_elem_of_singleton]%elem_of_app; [by right | by left].
Qed.

Lemma setitem_Forall {K NK V : Type} `{EqDecision NK} (adjust_key : K → NK)
    (Q : NK * (K * V) → Prop) (m : store K NK V) (key : K) (value : V) :
  Q (adjust_key key, (key, value)) → Forall Q m →
  Forall Q (setitem adjust_key m key value).
Proof.
  intros Hnew Hall. unfold setitem.
  destruct (decide (adjust_key key ∈ od_keys m)) as [Hin|Hnin].
  - destruct (od_setitem_present _ (key, value) _ Hin) as (i & _ & ->).
    by apply Forall_insert.
  - rewrite od_setitem_absent by done. apply Forall_app. split; [done |].
    by apply Forall_singleton.
Qed.

Section StoredProperties.
Context {Val : Type}.
Variable raw : raw_cellset Val.
Variable cell_properties : list string.

(** Every stored [dict] has its keys among the requested properties. *)
Local Abbreviation only_requested st :=
  (Forall (λ e : list string * (list string * properties Val),
             Forall (λ p, p ∈ cell_properties) (od_keys e.2.2))
          (content_as_dict st)).

Lemma store_property_only_requested (coordinates_sorted : list string) (p : string)
    (v : Val) (st st' : fstate Val) (r : result unit) :
  p ∈ cell_properties →
  store_property coordinates_sorted p v st = (st', r) →
  only_requested st → only_requested st'.
Proof.
  intros Hp. unfold store_property, CaseAndSpaceInsensitiveTuplesDict.getitem, getitem.
  destruct (od_getitem (adjust_tuple coordinates_sorted) (content_as_dict st))
    as [[k d]|] eqn:Hget; [| by intros [= <- <-]].
  intros [= <- <-] Hall. simpl.
  apply od_getitem_Some_elem_of in Hget.
  pose proof Hall as Hall'. rewrite Forall_forall in Hall'.
  specialize (Hall' _ Hget). simpl in Hall'.
  apply Forall_map. eapply Forall_impl; [exact Hall |].
  intros e He. simpl. destruct (decide _); [| done]. simpl.
  apply Forall_forall. intros x [->|Hx]%od_keys_setitem_elem_of; [done |].
  rewrite Forall_forall in Hall'. by apply Hall'.
Qed.

Lemma read_properties_only_requested (coordinates_sorted : list string)
    (ordinal_cells : nat) (props : list string) (st st' : fstate Val)
    (r : result unit) :
  Forall (λ p, p ∈ cell_properties) props →
  read_properties (Cells raw) coordinates_sorted ordinal_cells props st = (st', r) →
  only_requested st → only_requested st'.
Proof.
  revert st. induction props as [|p props IH]; intros st Hprops; simpl.
  - by intros [= <- <-].
  - apply Forall_cons in Hprops as [Hp Hprops].
    intros Hrun HJ.
    apply bind_inv in Hrun as [(st1 & v & Hread & Hrun)|(e & Hread & ->)].
    + unfold read_cell in Hread.
      destruct (Cells raw !! ordinal_cells) as [cell|]; [| done].
      destruct (od_getitem p cell); [| done]. injection Hread as <- <-.
      apply bind_inv in Hrun as [(st2 & [] & Hstore & Hrun)|(e & Hstore & ->)].
      * apply (store_property_only_requested _ _ _ _ _ _ Hp) in Hstore; [| done].
        by apply (IH st2).
      * by apply (store_property_only_requested _ _ _ _ _ _ Hp) in Hstore.
    + unfold read_cell in Hread.
      destruct (Cells raw !! ordinal_cells) as [cell|]; [| by injection Hread as <-].
      destruct (od_getitem p cell); [done |]. by injection Hread as <-.
Qed.

Lemma cell_body_only_requested (cube_dimensions : list string) (axe0 : axis)
    (elements_on_axe2 elements_on_axe1 : list string) (j ordinal_cells : nat)
    (st st' : fstate Val) (r : result unit) :
  cell_body raw cell_properties cube_dimensions axe0 elements_on_axe2
            elements_on_axe1 j ordinal_cells st = (st', r) →
  only_requested st → only_requested st'.
Proof.
  unfold cell_body. intros Hrun HJ.
  apply bind_inv in Hrun as [(st1 & t0 & Hindex & Hrun)|(e & Hindex & ->)];
    apply index_inv in Hindex as [-> _]; [| done].
  apply bind_inv in Hrun as [(st1 & coords & Hsort & Hrun)|(e & Hsort & ->)].
  - unfold lift in Hsort. destruct (sort_addresstuple _ _); [| done].
    injection Hsort as <- <-.
    apply bind_inv in Hrun as [(st2 & [] & Hstore & Hrun)|(e & Hstore & _)]; [| done].
    injection Hstore as <-.
    apply read_properties_only_requested in Hrun; [done | |].
    + apply Forall_forall. auto.
    + simpl. apply setitem_Forall; [constructor | done].
  - unfold lift in Hsort. destruct (sort_addresstuple _ _); [done |].
    by injection Hsort as <-.
Qed.

(** X29. The data frame needs the [Value] of the cells.  When [Value]
    is not among the cell properties the flattener was asked for, the
    mapping it returns, unless empty, cannot be turned into a data
    frame: the conversion fails with [KeyError]. *)
Theorem dataframe_after_flattening_needs_value (top : option Z)
    (content : store (list string) (list string) (properties Val)) :
  "Value" ∉ cell_properties →
  build_content_from_cellset raw cell_properties top = Ok content →
  content ≠ [] →
  build_pandas_dataframe_arguments content = inl KeyError.
Proof.
  intros Hvalue Hflat Hne. unfold build_content_from_cellset in Hflat.
  destruct (build_content_run raw cell_properties top) as [st [[]|e]] eqn:Hrun;
    [| done].
  injection Hflat as <-.
  apply (build_content_run_invariant raw cell_properties top
           (λ _ st, only_requested st ∧ wf adjust_tuple (content_as_dict st)))
    in Hrun as [(_ & Hall & Hwf) _].
  - unfold build_pandas_dataframe_arguments.
    assert (Exists (λ e : list string * (list string * properties Val),
                      od_getitem "Value" e.2.2 = None) (content_as_dict st)) as Hex.
    { destruct (content_as_dict st) as [|e m]; [done |].
      apply Exists_cons_hd. apply Forall_cons in Hall as [He _].
      apply od_getitem_None. intros Hin. rewrite Forall_forall in He. auto. }
    pose proof (clean_loop_missing_value [] (content_as_dict st) [] None Hwf Hex)
      as Hloop.
    change ([] ++ content_as_dict st) with (content_as_dict st) in Hloop.
    by rewrite Hloop.
  - intros axe0 el2 el1 j oc st0 st1 r1 _ [Hall Hwf] Hcell. split.
    + by apply cell_body_only_requested in Hcell.
    + apply cell_body_effect in Hcell
        as [[-> _]|(t0 & coords & _ & _ & Hkeys & _)]; [done |].
      apply (entry_keys_wf _ _ Hkeys). by apply wf_setitem.
  - split; [constructor | apply wf_init_nil].
Qed.
End StoredProperties.

Lemma dataframe_after_flattening_needs_value_witness :
  build_pandas_dataframe_arguments
    [(["[businessunit].[uk]"; "[scenario].[actual]"],
      (["[Business Unit].[UK]"; "[Scenario].[Actual]"],
       ([] : properties Z)))]
  = inl KeyError.
Proof.
  apply (dataframe_after_flattening_needs_value sample_cellset [] (Some 1%Z)).
  - apply not_elem_of_nil.
  - reflexivity.
  - done.
Defined.
